(** * document-qa-generator: a shallow embedding and its verified properties

    The development follows the four source files:
    - [config.py]     : the [config] module (environment loading);
    - [utils.py]      : the [json] and [re] library models and the [utils]
                        module (response parser);
    - [processor.py]  : the [random] model and the [processor] module
                        (document processor and batch driver);
    - [main.py]       : the entry point.

    Python text ([str]) is a sequence of Unicode code points, here [list N].
    Exceptions are values of [exn]; a computation that may raise returns a
    [result]. *)

From Stdlib Require Import NArith ZArith String Ascii.
From stdpp Require Import gmap strings list sorting.

Local Open Scope N_scope.

(** ** Text *)

Abbreviation str := (list N).

(** The text written as a string literal, character by character *)
Fixpoint pystr (s : string) : str :=
  match s with
  | EmptyString => []
  | String a s' => N_of_ascii a :: pystr s'
  end.

(** [jstr s] is [pystr s] with every apostrophe standing for a double
    quote, to write JSON text. *)
Definition jstr (s : string) : str :=
  (λ c, if c =? 39 then 34 else c) <$> pystr s.

(** [s.startswith(p)] *)
Fixpoint startswith (s p : str) : bool :=
  match p, s with
  | [], _ => true
  | _ :: _, [] => false
  | a :: p', b :: s' => (a =? b) && startswith s' p'
  end.

(** [s.endswith(p)] *)
Definition endswith (s p : str) : bool := startswith (reverse s) (reverse p).

(** [Py_UNICODE_ISSPACE]: the whitespace of [str.strip()] and of the
    pattern class [\s] *)
Definition isspace (c : N) : bool :=
  ((0x09 <=? c) && (c <=? 0x0d)) || ((0x1c <=? c) && (c <=? 0x20))
  || (c =? 0x85) || (c =? 0xa0) || (c =? 0x1680)
  || ((0x2000 <=? c) && (c <=? 0x200a))
  || (c =? 0x2028) || (c =? 0x2029) || (c =? 0x202f) || (c =? 0x205f)
  || (c =? 0x3000).

Fixpoint lstrip (s : str) : str :=
  match s with
  | c :: s' => if isspace c then lstrip s' else s
  | [] => []
  end.

Definition rstrip (s : str) : str := reverse (lstrip (reverse s)).

(** [s.strip()] *)
Definition strip (s : str) : str := rstrip (lstrip s).

(** ** Exceptions and results *)

Inductive exn :=
| ValueError (msg : str)
| JSONDecodeError
| ConversionError
| GenerationError
| OSError.

Inductive result (A : Type) :=
| Return (a : A)
| Raise (e : exn).
Arguments Return {A} a.
Arguments Raise {A} e.

(** ** Paths ([pathlib], POSIX flavour)

    A path is its tuple of parts; an absolute path starts with the part
    ["/"]. *)

Abbreviation path := (list str).

Fixpoint split_on (sep : N) (s : str) : list str :=
  match s with
  | [] => [[]]
  | c :: s' =>
      if c =? sep then [] :: split_on sep s'
      else match split_on sep s' with
           | [] => [[c]]
           | w :: ws => (c :: w) :: ws
           end
  end.

Definition slash : N := 47.
Definition dot : N := 46.

Definition is_part (w : str) : bool :=
  negb (bool_decide (w = [])) && negb (bool_decide (w = [dot])).

(** [Path(s)] *)
Definition Path (s : str) : path :=
  (if startswith s [slash] then [[slash]] else [])
    ++ filter (λ w, is_part w = true) (split_on slash s).

(** [p / name] for a single-component [name] *)
Definition joinpath (p : path) (name : str) : path := p ++ [name].

(** [p.parent] *)
Definition parent (p : path) : path := removelast p.

(** [p.name] *)
Definition name (p : path) : str := List.last p [].

(** [s.rfind('.')], as the number of characters before the last dot *)
Fixpoint rfind_dot (s : str) : option nat :=
  match s with
  | [] => None
  | c :: s' =>
      match rfind_dot s' with
      | Some i => Some (S i)
      | None => if c =? dot then Some 0%nat else None
      end
  end.

(** [p.stem]: the final component without its suffix *)
Definition stem (p : path) : str :=
  let nm := name p in
  match rfind_dot nm with
  | Some i => if (0 <? i)%nat && (i <? length nm - 1)%nat then take i nm else nm
  | None => nm
  end.

(** * config.py *)

Module config.

Abbreviation environ := (gmap string str).

(** [os.getenv(k)] / [os.environ.get(k)] *)
Definition getenv (env : environ) (k : string) : option str := env !! k.

(** Python truthiness of an optional string: [None] and [''] are false. *)
Definition truthy (o : option str) : bool :=
  match o with
  | None => false
  | Some [] => false
  | Some (_ :: _) => true
  end.

Definition required (var : string) : exn :=
  ValueError (pystr var ++ pystr " environment variable is required").

Record Config := {
  ollama_host : str;
  ollama_model : str;
  folder_path : path;
  file_path : path;
  top_p : option str;
  temperature : option str;
  repeat_penaly : option str;
  max_new_tokens : option str
}.

(** [host.startswith(('http://', 'https://'))] *)
Definition has_scheme (host : str) : bool :=
  startswith host (pystr "http://") || startswith host (pystr "https://").

Definition _get_ollama_host (env : environ) : result str :=
  match getenv env "OLLAMA_HOST" with
  | Some (c :: h) =>
      let ollama_host := c :: h in
      let ollama_host :=
        if bool_decide (ollama_host = pystr "0.0.0.0:11434")
        then pystr "localhost:11434" else ollama_host in
      if negb (has_scheme ollama_host)
      then Return (pystr "http://" ++ ollama_host)
      else Return ollama_host
  | _ => Raise (required "OLLAMA_HOST")
  end.

Definition Config__init__ (env : environ) : result Config :=
  match _get_ollama_host env with
  | Raise e => Raise e
  | Return host =>
      let ollama_model := getenv env "OLLAMA_MODEL" in
      if negb (truthy ollama_model) then Raise (required "OLLAMA_MODEL") else
      let folder_path := getenv env "FOLDER_PATH" in
      let file_path := getenv env "FILE_PATH" in
      if negb (truthy folder_path) then Raise (required "FOLDER_PATH") else
      if negb (truthy file_path) then Raise (required "FILE_PATH") else
      Return {| ollama_host := host;
                ollama_model := default [] ollama_model;
                folder_path := Path (default [] folder_path);
                file_path := Path (default [] file_path);
                top_p := getenv env "TOP_P";
                temperature := getenv env "TEMPERATURE";
                repeat_penaly := getenv env "PENALTY";
                max_new_tokens := getenv env "MAX_NEW_TOKENS" |}
  end.

(** The four required variables, in the order [__init__] checks them. *)
Definition required_vars : list string :=
  ["OLLAMA_HOST"; "OLLAMA_MODEL"; "FOLDER_PATH"; "FILE_PATH"]%string.

Definition missing (env : environ) (var : string) : bool :=
  negb (truthy (getenv env var)).

End config.

(** * The [json] library: [json.loads]

    The decoder follows CPython's scanner: JSON whitespace is exactly
    space, tab, line feed and carriage return; a leading U+FEFF is refused;
    [NaN], [Infinity] and [-Infinity] are accepted; strings are decoded in
    strict mode.  A float is kept as the literal that denotes it (Python
    applies [float] to that literal), an integer as its value.  Interpreter
    resource limits (recursion depth, integer digit limit) are not part of
    the model.  Every failure of the decoder is a [JSONDecodeError]. *)

Module json.

Inductive value :=
| Null
| Bool (b : bool)
| Int (z : Z)
| Float (literal : str)
| Str (s : str)
| List (l : list value)
| Dict (d : list (str * value)).

Definition quote : N := 34.
Definition backslash : N := 92.
Definition backtick : N := 96.

(** [WHITESPACE_STR = ' \t\n\r'] *)
Definition is_ws (c : N) : bool :=
  (c =? 32) || (c =? 9) || (c =? 10) || (c =? 13).

(** [WHITESPACE.match(s, end).end()] *)
Fixpoint skip_ws (s : str) : str :=
  match s with
  | c :: s' => if is_ws c then skip_ws s' else s
  | [] => []
  end.

Definition is_digit (c : N) : bool := (48 <=? c) && (c <=? 57).

Fixpoint span_digits (s : str) : str * str :=
  match s with
  | c :: s' =>
      if is_digit c then let '(ds, r) := span_digits s' in (c :: ds, r)
      else ([], s)
  | [] => ([], [])
  end.

(** *** Numbers: an optional minus sign, then 0 or a non-zero digit and
    digits; optionally a dot and digits; optionally e or E, a sign and digits
    ([NUMBER_RE]). *)

Definition match_sign (s : str) : str * str :=
  match s with
  | c :: s' => if c =? 45 then ([c], s') else ([], s)
  | [] => ([], [])
  end.

Definition match_int (s : str) : option (str * str) :=
  let '(sign, s1) := match_sign s in
  match s1 with
  | c :: s2 =>
      if c =? 48 then Some (sign ++ [c], s2)
      else if is_digit c then
        let '(ds, r) := span_digits s2 in Some (sign ++ c :: ds, r)
      else None
  | [] => None
  end.

Definition match_frac (s : str) : str * str :=
  match s with
  | c :: d :: s' =>
      if (c =? 46) && is_digit d then
        let '(ds, r) := span_digits s' in (c :: d :: ds, r)
      else ([], s)
  | _ => ([], s)
  end.

Definition match_exp_sign (s : str) : str * str :=
  match s with
  | c :: s' => if (c =? 43) || (c =? 45) then ([c], s') else ([], s)
  | [] => ([], [])
  end.

Definition match_exp (s : str) : str * str :=
  match s with
  | e :: s1 =>
      if (e =? 101) || (e =? 69) then
        let '(sg, s2) := match_exp_sign s1 in
        match span_digits s2 with
        | ([], _) => ([], s)
        | (ds, r) => (e :: sg ++ ds, r)
        end
      else ([], s)
  | [] => ([], [])
  end.

(** [int(literal)] for a literal matched by [match_int] *)
Definition digits_value (ds : str) : Z :=
  foldl (λ acc c, (acc * 10 + Z.of_N (c - 48))%Z) 0%Z ds.

Definition parse_int (lit : str) : Z :=
  match lit with
  | c :: ds => if c =? 45 then (- digits_value ds)%Z else digits_value lit
  | [] => 0%Z
  end.

Definition match_number (s : str) : option (value * str) :=
  match match_int s with
  | None => None
  | Some (integer, s1) =>
      let '(frac, s2) := match_frac s1 in
      let '(exp, s3) := match_exp s2 in
      match frac, exp with
      | [], [] => Some (Int (parse_int integer), s3)
      | _, _ => Some (Float (integer ++ frac ++ exp), s3)
      end
  end.

(** [s[idx:idx+len(lit)] == lit], returning what follows the literal *)
Definition literal (lit : str) (s : str) : option str :=
  if startswith s lit then Some (drop (length lit) s) else None.

(** *** Strings *)

Definition hexval (c : N) : option N :=
  if (48 <=? c) && (c <=? 57) then Some (c - 48)
  else if (97 <=? c) && (c <=? 102) then Some (c - 87)
  else if (65 <=? c) && (c <=? 70) then Some (c - 55)
  else None.

(** Four hexadecimal digits at the head of [s] *)
Definition decode_uXXXX (s : str) : option (N * str) :=
  match s with
  | a :: b :: c :: d :: s' =>
      a' ← hexval a; b' ← hexval b; c' ← hexval c; d' ← hexval d;
      Some (((a' * 16 + b') * 16 + c') * 16 + d', s')
  | _ => None
  end.

(** The [BACKSLASH] table *)
Definition BACKSLASH (c : N) : option N :=
  if c =? 34 then Some 34
  else if c =? 92 then Some 92
  else if c =? 47 then Some 47
  else if c =? 98 then Some 8
  else if c =? 102 then Some 12
  else if c =? 110 then Some 10
  else if c =? 114 then Some 13
  else if c =? 116 then Some 9
  else None.

Definition is_high_surrogate (u : N) : bool := (0xd800 <=? u) && (u <=? 0xdbff).
Definition is_low_surrogate (u : N) : bool := (0xdc00 <=? u) && (u <=? 0xdfff).

(** The character denoted by an escape, given the text after the backslash,
    and the text after the escape. *)
Definition decode_escape (s : str) : option (N * str) :=
  match s with
  | [] => None
  | esc :: s1 =>
      if negb (esc =? 117) then c ← BACKSLASH esc; Some (c, s1)
      else
        '(uni, s2) ← decode_uXXXX s1;
        if is_high_surrogate uni && startswith s2 [backslash; 117] then
          '(uni2, s3) ← decode_uXXXX (drop 2 s2);
          if is_low_surrogate uni2
          then Some (0x10000 + N.lor (N.shiftl (uni - 0xd800) 10) (uni2 - 0xdc00), s3)
          else Some (uni, s2)
        else Some (uni, s2)
  end.

(** [scanstring(s, end)], [s] being the text after the opening quote *)
Fixpoint scanstring (fuel : nat) (s : str) : option (str * str) :=
  match fuel with
  | O => None
  | S fuel =>
      match s with
      | [] => None
      | c :: s1 =>
          if c =? quote then Some ([], s1)
          else if c =? backslash then
            '(ch, s2) ← decode_escape s1;
            '(chunks, r) ← scanstring fuel s2;
            Some (ch :: chunks, r)
          else if c <=? 0x1f then None
          else
            '(chunks, r) ← scanstring fuel s1;
            Some (c :: chunks, r)
      end
  end.

(** *** Objects: [dict(pairs)] keeps the position of the first occurrence of
    a key and the value of its last. *)

Fixpoint dict_set (k : str) (v : value) (d : list (str * value)) : list (str * value) :=
  match d with
  | [] => [(k, v)]
  | (k', v') :: d' =>
      if bool_decide (k' = k) then (k, v) :: d' else (k', v') :: dict_set k v d'
  end.

Definition dict (pairs : list (str * value)) : list (str * value) :=
  foldl (λ d kv, dict_set kv.1 kv.2 d) [] pairs.

(** *** The scanner *)

Fixpoint scan_once (fuel : nat) (s : str) : option (value * str) :=
  match fuel with
  | O => None
  | S fuel =>
      match s with
      | [] => None
      | nextchar :: s1 =>
          if nextchar =? quote then
            '(str, r) ← scanstring (S (length s1)) s1; Some (Str str, r)
          else if nextchar =? 123 then
            match skip_ws s1 with
            | c :: s2 =>
                if c =? 125 then Some (Dict [], s2)
                else if c =? quote then
                  '(pairs, r) ← JSONObject fuel s2; Some (Dict (dict pairs), r)
                else None
            | [] => None
            end
          else if nextchar =? 91 then
            match skip_ws s1 with
            | c :: s2 =>
                if c =? 93 then Some (List [], s2)
                else '(values, r) ← JSONArray fuel (c :: s2); Some (List values, r)
            | [] => None
            end
          else if nextchar =? 110 then
            r ← literal (pystr "null") s; Some (Null, r)
          else if nextchar =? 116 then
            r ← literal (pystr "true") s; Some (Bool true, r)
          else if nextchar =? 102 then
            r ← literal (pystr "false") s; Some (Bool false, r)
          else
            match match_number s with
            | Some m => Some m
            | None =>
                if nextchar =? 78 then
                  r ← literal (pystr "NaN") s; Some (Float (pystr "NaN"), r)
                else if nextchar =? 73 then
                  r ← literal (pystr "Infinity") s; Some (Float (pystr "Infinity"), r)
                else if nextchar =? 45 then
                  r ← literal (pystr "-Infinity") s; Some (Float (pystr "-Infinity"), r)
                else None
            end
      end
  end
with JSONArray (fuel : nat) (s : str) : option (list value * str) :=
  match fuel with
  | O => None
  | S fuel =>
      '(value, s1) ← scan_once fuel s;
      match skip_ws s1 with
      | c :: s2 =>
          if c =? 93 then Some ([value], s2)
          else if c =? 44 then
            '(values, r) ← JSONArray fuel (skip_ws s2); Some (value :: values, r)
          else None
      | [] => None
      end
  end
with JSONObject (fuel : nat) (s : str) : option (list (str * value) * str) :=
  match fuel with
  | O => None
  | S fuel =>
      '(key, s1) ← scanstring (S (length s)) s;
      match skip_ws s1 with
      | c :: s2 =>
          if c =? 58 then
            '(value, s3) ← scan_once fuel (skip_ws s2);
            match skip_ws s3 with
            | d :: s4 =>
                if d =? 125 then Some ([(key, value)], s4)
                else if d =? 44 then
                  match skip_ws s4 with
                  | q :: s5 =>
                      if q =? quote then
                        '(pairs, r) ← JSONObject fuel s5; Some ((key, value) :: pairs, r)
                      else None
                  | [] => None
                  end
                else None
            | [] => None
            end
          else None
      | [] => None
      end
  end.

(** [json.loads(s)]; the recursion of the scanner is bounded by a number of
    steps that no text of this length can exhaust. *)
Definition loads (s : str) : result value :=
  if startswith s [0xfeff] then Raise JSONDecodeError
  else
    match scan_once (S (2 * length s)) (skip_ws s) with
    | Some (obj, r) =>
        match skip_ws r with
        | [] => Return obj
        | _ :: _ => Raise JSONDecodeError
        end
    | None => Raise JSONDecodeError
    end.

(** The characters a JSON value can start with and end in *)
Definition value_start (c : N) : bool :=
  (c =? quote) || (c =? 123) || (c =? 91) || (c =? 110) || (c =? 116)
  || (c =? 102) || (c =? 45) || is_digit c || (c =? 78) || (c =? 73).

Definition value_end (c : N) : bool :=
  (c =? quote) || (c =? 125) || (c =? 93) || (c =? 108) || (c =? 101)
  || is_digit c || (c =? 78) || (c =? 121).

(** A text whose last character is in the class [P] *)
Definition ends_in (P : N → bool) (c : str) : Prop :=
  ∃ c' b, c = c' ++ [b] ∧ P b = true.

End json.

(** * The [re] library: a backtracking matcher for the constructs of
    [json_pattern]

    Alternatives are tried in the order of Python's engine: an optional
    group and a greedy star first try to take as much as they can, a lazy
    star as little as it can; [search] tries every start position from the
    left.  [g] is the text of group 1, if it has been set. *)

Module re.

Inductive atom :=
| Lit (c : N)        (* a caseless character *)
| LitI (c : N)       (* a lower-case letter under [re.IGNORECASE] *)
| Space              (* [\s] *)
| Any.               (* [.] under [re.DOTALL] *)

Inductive regex :=
| Eps
| Chr (a : atom)
| Cat (r1 r2 : regex)
| Opt (r : regex)         (* [(?:r)?] *)
| Star (a : atom)         (* [a*] *)
| LazyStar (a : atom)     (* [a*?] *)
| Group (r : regex).      (* [(r)], group 1 *)

(** Lower-casing, as far as the letters of the pattern need it: the
    characters whose lower case is an ASCII letter [p] of [json] are [p] and
    its capital, and the pattern letter [s] also matches U+017F. *)
Definition lower (c : N) : N :=
  if (65 <=? c) && (c <=? 90) then c + 32 else c.

Definition atom_match (a : atom) (c : N) : bool :=
  match a with
  | Lit p => c =? p
  | LitI p => (lower c =? p) || ((p =? 115) && (c =? 0x17f))
  | Space => isspace c
  | Any => true
  end.

Section matcher.
Context {R : Type}.

Fixpoint star (a : atom) (k : str → option R) (s : str) : option R :=
  match s with
  | c :: s' =>
      if atom_match a c then
        match star a k s' with
        | Some m => Some m
        | None => k s
        end
      else k s
  | [] => k []
  end.

Fixpoint lazy_star (a : atom) (k : str → option R) (s : str) : option R :=
  match k s with
  | Some m => Some m
  | None =>
      match s with
      | c :: s' => if atom_match a c then lazy_star a k s' else None
      | [] => None
      end
  end.

Fixpoint rmatch (r : regex) (s : str) (g : option str)
    (k : str → option str → option R) : option R :=
  match r with
  | Eps => k s g
  | Chr a =>
      match s with
      | c :: s' => if atom_match a c then k s' g else None
      | [] => None
      end
  | Cat r1 r2 => rmatch r1 s g (λ s' g', rmatch r2 s' g' k)
  | Opt r1 =>
      match rmatch r1 s g k with
      | Some m => Some m
      | None => k s g
      end
  | Star a => star a (λ s', k s' g) s
  | LazyStar a => lazy_star a (λ s', k s' g) s
  | Group r1 =>
      rmatch r1 s g (λ s' _, k s' (Some (take (length s - length s') s)))
  end.

End matcher.

(** A match object, reduced to [m.group(1)] *)
Record Match := { group1 : option str }.

(** [re.match(r, s)] *)
Definition match_ (r : regex) (s : str) : option Match :=
  rmatch r s None (λ _ g, Some {| group1 := g |}).

(** [re.search(r, s)] *)
Fixpoint search (r : regex) (s : str) : option Match :=
  match match_ r s with
  | Some m => Some m
  | None =>
      match s with
      | _ :: s' => search r s'
      | [] => None
      end
  end.

Definition seq (rs : list regex) : regex := foldr Cat Eps rs.
Definition lit (s : str) : regex := seq ((λ c, Chr (Lit c)) <$> s).
Definition lit_ignorecase (s : str) : regex := seq ((λ c, Chr (LitI c)) <$> s).

End re.

(** * utils.py *)

Module utils.

Definition fence : str := [json.backtick; json.backtick; json.backtick].

(** The pattern of [clean_json_response] compiled with
    [re.DOTALL | re.IGNORECASE]: three backticks, an optional [json],
    [\s*], group 1 [(.*?)], [\s*], three backticks. *)
Definition json_pattern : re.regex :=
  re.seq [ re.lit fence;
           re.Opt (re.lit_ignorecase (pystr "json"));
           re.Star re.Space;
           re.Group (re.LazyStar re.Any);
           re.Star re.Space;
           re.lit fence ].

Definition clean_json_response (response_text : str) : str :=
  match re.search json_pattern response_text with
  | Some m => strip (default [] (re.group1 m))
  | None => strip response_text
  end.

Definition parse_llm_response (response_text : str) : result json.value :=
  match json.loads response_text with
  | Return v => Return v
  | Raise JSONDecodeError =>
      let cleaned_response := clean_json_response response_text in
      json.loads cleaned_response
  | Raise e => Raise e
  end.

(** ** Reference descriptions of responses, to state the parser's properties *)

(** Does the text contain three consecutive backticks? *)
Fixpoint has_fence (s : str) : bool :=
  match s with
  | [] => false
  | _ :: s' => startswith s fence || has_fence s'
  end.

(** The tag after an opening fence: nothing, or [json] in any case *)
Definition is_tag (tag : str) : bool :=
  match tag with
  | [] => true
  | [j; s; o; n] =>
      re.atom_match (re.LitI 106) j && re.atom_match (re.LitI 115) s
      && re.atom_match (re.LitI 111) o && re.atom_match (re.LitI 110) n
  | _ => false
  end.

(** The text [t] in a code fence: [pre] is the text before the fence, [ws1]
    and [ws2] the whitespace around [t]. *)
Definition fenced (pre tag ws1 t ws2 : str) : str :=
  pre ++ fence ++ tag ++ ws1 ++ t ++ ws2 ++ fence.

End utils.

(** * The [random] library: [random.shuffle]

    The generator is a sequence of arbitrary draws and a position in it;
    [_randbelow n] reduces the next draw below [n]. *)

Module random.

Record Random := { draws : nat → nat; pos : nat }.

Definition _randbelow (n : nat) (g : Random) : nat * Random :=
  (draws g (pos g) `mod` n, {| draws := draws g; pos := S (pos g) |})%nat.

(** [x[i], x[j] = x[j], x[i]] *)
Definition swap {A} (x : list A) (i j : nat) : list A :=
  match x !! i, x !! j with
  | Some a, Some b => <[j := a]> (<[i := b]> x)
  | _, _ => x
  end.

(** The loop [for i in reversed(range(1, len(x)))], from index [i] down *)
Fixpoint shuffle_from {A} (i : nat) (x : list A) (g : Random) : list A * Random :=
  match i with
  | O => (x, g)
  | S i' =>
      let '(j, g') := _randbelow (S i) g in
      shuffle_from i' (swap x i j) g'
  end.

Definition shuffle {A} (x : list A) (g : Random) : list A * Random :=
  shuffle_from (length x - 1) x g.

End random.

(** * processor.py *)

Module processor.

(** ** The world the processor acts on

    The output side of the file system is the set of existing directories
    and the JSON files with their content (the value given to [json.dump]);
    it has no permissions: a file can be opened for writing exactly when its
    directory exists.  [trace] records the calls to the external
    collaborators and the file writes, in order. *)

Inductive event :=
| EvConvert (doc_path : path)
| EvChat (doc_md : str)
| EvWrite (file : path) (data : json.value).

Record World := {
  dirs : gset path;
  files : gmap path json.value;
  rng : random.Random;
  trace : list event
}.

Definition log (e : event) (w : World) : World :=
  {| dirs := dirs w; files := files w; rng := rng w; trace := trace w ++ [e] |}.

(** Computations that act on the world and may raise *)
Definition M (A : Type) : Type := World → result A * World.

Definition ret {A} (a : A) : M A := λ w, (Return a, w).
Definition raise {A} (e : exn) : M A := λ w, (Raise e, w).
Definition bind {A B} (m : M A) (k : A → M B) : M B :=
  λ w, match m w with
       | (Return a, w') => k a w'
       | (Raise e, w') => (Raise e, w')
       end.
Definition lift {A} (r : result A) : M A := λ w, (r, w).

#[global] Instance M_ret : MRet M := @ret.
#[global] Instance M_bind : MBind M := λ A B k m, bind m k.

Definition is_dir (w : World) (d : path) : bool :=
  bool_decide (d = []) || bool_decide (d = [[slash]]) || bool_decide (d ∈ dirs w).

(** [d.mkdir(exist_ok=True)] *)
Definition mkdir_exist_ok (d : path) : M () :=
  λ w, if is_dir w d then (Return (), w)
       else if is_dir w (parent d) then
         (Return (), {| dirs := {[d]} ∪ dirs w; files := files w;
                        rng := rng w; trace := trace w |})
       else (Raise OSError, w).

(** [with open(file, 'w') as f: json.dump(data, f)] *)
Definition dump (data : json.value) (file : path) : M () :=
  λ w, if is_dir w (parent file) then
         (Return (), log (EvWrite file data)
                       {| dirs := dirs w; files := <[file := data]> (files w);
                          rng := rng w; trace := trace w |})
       else (Raise OSError, w).

(** [random.shuffle(x)] on the process-wide generator *)
Definition shuffle (x : list json.value) : M (list json.value) :=
  λ w, let '(x', g) := random.shuffle x (rng w) in
       (Return x', {| dirs := dirs w; files := files w; rng := g; trace := trace w |}).

(** ['/'.join(parts)] *)
Fixpoint join_parts (ps : list str) : str :=
  match ps with
  | [] => []
  | [a] => a
  | a :: ps' => a ++ slash :: join_parts ps'
  end.

(** [str(p)] *)
Definition path_str (p : path) : str :=
  match p with
  | [] => [dot]
  | r :: ps =>
      if bool_decide (r = [slash]) then slash :: join_parts ps
      else join_parts p
  end.

(** The default ordering of paths: by parts, each part by code points *)
Fixpoint str_le (a b : str) : bool :=
  match a, b with
  | [], _ => true
  | _ :: _, [] => false
  | x :: a', y :: b' => (x <? y) || ((x =? y) && str_le a' b')
  end.

Fixpoint path_le (p q : path) : bool :=
  match p, q with
  | [], _ => true
  | _ :: _, [] => false
  | x :: p', y :: q' =>
      if bool_decide (x = y) then path_le p' q' else str_le x y
  end.

Definition path_order : relation path := λ p q, path_le p q = true.

#[global] Instance path_order_dec : RelDecision path_order.
Proof. intros p q. unfold path_order. apply _. Defined.

(** The request of [client.chat] *)
Record ChatRequest := {
  model : str;
  system : str;
  user : str;
  opt_temperature : option str;
  opt_top_p : option str;
  opt_num_predict : option str;
  opt_repeat_penalty : option str
}.

Section Processor.

(** The external collaborators: the document converter, the chat service
    (whose answer may depend on what happened before), and the input side of
    the file system. *)
Variable converter_convert : path → option str.
Variable client_chat : list event → ChatRequest → option str.
(** [p.exists()] and the names of the entries of a directory (none for a
    path that is not a directory), as they are when the batch starts *)
Variable exists_ : path → bool.
Variable scandir : path → list str.

(** [utils.SYS_PROMPT] and [utils.TODAY] *)
Variable SYS_PROMPT : str.
Variable TODAY : str.

(** The global [config] *)
Variable config : config.Config.

Definition md_converter (doc_path : path) : M str :=
  λ w, let w := log (EvConvert doc_path) w in
       match converter_convert doc_path with
       | Some md => (Return md, w)
       | None => (Raise ConversionError, w)
       end.

Definition llm_qa_generator (doc_md : str) : M str :=
  λ w, let request :=
         {| model := config.ollama_model config;
            system := SYS_PROMPT;
            user := doc_md;
            opt_temperature := config.temperature config;
            opt_top_p := config.top_p config;
            opt_num_predict := config.max_new_tokens config;
            opt_repeat_penalty := config.repeat_penaly config |} in
       match client_chat (trace w) request with
       | Some content => (Return content, log (EvChat doc_md) w)
       | None => (Raise GenerationError, log (EvChat doc_md) w)
       end.

Definition qa_dataset : str := pystr "_qa_dataset.json".

Definition process_document (doc_path : path) (output_dir : option path)
    (shuffle_qa : bool) : M json.value :=
  doc_md ← md_converter doc_path;
  llm_response ← llm_qa_generator doc_md;
  json_data ← lift (utils.parse_llm_response llm_response);
  json_data ← match json_data with
              | json.List l =>
                  if shuffle_qa then (l' ← shuffle l; mret (json.List l'))
                  else mret json_data
              | _ => mret json_data
              end;
  let doc_name := stem doc_path in
  output_file ← match output_dir with
                | Some output_dir =>
                    (mkdir_exist_ok output_dir;;
                     mret (joinpath output_dir (doc_name ++ qa_dataset)))
                | None => mret (Path (doc_name ++ qa_dataset))
                end;
  (dump json_data output_file;;
   mret json_data).

Definition supported_extensions : list str :=
  pystr <$> [".docx"; ".pptx"; ".pdf"; ".txt"; ".md"]%string.

(** [folder_path.glob(f"*{ext}")]: the entries directly inside the folder
    whose name ends in [ext]; names are compared as they are (the matching of
    a case-sensitive file system). *)
Definition glob (folder_path : path) (ext : str) : list path :=
  joinpath folder_path <$> filter (λ nm, endswith nm ext = true) (scandir folder_path).

(** The sorted list of the documents of the folder *)
Definition doc_files (folder_path : path) : list path :=
  let found : gset path :=
    foldl (λ acc ext, acc ∪ list_to_set (glob folder_path ext)) ∅ supported_extensions in
  merge_sort path_order (elements found).

(** The loop over the documents *)
Fixpoint process_each (docs : list path) (output_dir : option path)
    (shuffle_qa : bool) (all_results : list json.value) : M (list json.value) :=
  match docs with
  | [] => mret all_results
  | doc_file :: docs' =>
      λ w, match process_document doc_file output_dir shuffle_qa w with
           | (Return result, w') =>
               process_each docs' output_dir shuffle_qa (all_results ++ [result]) w'
           | (Raise _, w') =>
               process_each docs' output_dir shuffle_qa all_results w'
           end
  end.

(** [combined_qa.extend(result)] for the results that are lists *)
Definition flatten (all_results : list json.value) : list json.value :=
  foldl (λ combined_qa result,
           match result with
           | json.List l => combined_qa ++ l
           | _ => combined_qa
           end) [] all_results.

Definition combined_name : str := TODAY ++ pystr "_combined_qa_dataset.json".

Definition process_multiple_documents (folder_path : path)
    (output_dir : option path) (shuffle_qa shuffle_combined : bool)
    : M (list json.value) :=
  if negb (exists_ folder_path) then
    raise (ValueError (pystr "Folder path does not exist: " ++ path_str folder_path))
  else
    let docs := doc_files folder_path in
    match docs with
    | [] => mret []
    | _ :: _ =>
        all_results ← process_each docs output_dir shuffle_qa [];
        match output_dir, all_results with
        | Some output_dir, _ :: _ =>
            let combined_file := joinpath output_dir combined_name in
            let combined_qa := flatten all_results in
            combined_qa ← match combined_qa with
                          | _ :: _ =>
                              if shuffle_combined then shuffle combined_qa
                              else mret combined_qa
                          | [] => mret combined_qa
                          end;
            (dump (json.List combined_qa) combined_file;;
             mret all_results)
        | _, _ => mret all_results
        end
    end.

(** ** Reference descriptions of a batch run, to state its properties

    [outcomes] runs the document processor on each document in turn and
    keeps every outcome, failed or not; [successes] are the values of the
    outcomes that succeeded. *)

Fixpoint outcomes (docs : list path) (output_dir : option path)
    (shuffle_qa : bool) (w : World) : list (path * result json.value) * World :=
  match docs with
  | [] => ([], w)
  | doc :: docs' =>
      let '(r, w1) := process_document doc output_dir shuffle_qa w in
      let '(rs, w2) := outcomes docs' output_dir shuffle_qa w1 in
      ((doc, r) :: rs, w2)
  end.

(** The request [llm_qa_generator] sends for a document's markdown *)
Definition chat_request (doc_md : str) : ChatRequest :=
  {| model := config.ollama_model config;
     system := SYS_PROMPT;
     user := doc_md;
     opt_temperature := config.temperature config;
     opt_top_p := config.top_p config;
     opt_num_predict := config.max_new_tokens config;
     opt_repeat_penalty := config.repeat_penaly config |}.

End Processor.

(** The file [process_document] writes for a document *)
Definition output_file (doc_path : path) (output_dir : option path) : path :=
  match output_dir with
  | Some d => joinpath d (stem doc_path ++ qa_dataset)
  | None => Path (stem doc_path ++ qa_dataset)
  end.

(** The world with another state of the random generator *)
Definition with_rng (g : random.Random) (w : World) : World :=
  {| dirs := dirs w; files := files w; rng := g; trace := trace w |}.

(** The files the successful outcomes of a run leave, over the files [fs] *)
Definition outputs (output_dir : option path)
    (os : list (path * result json.value)) (fs : gmap path json.value)
    : gmap path json.value :=
  foldl (λ fs o, match o.2 with
                 | Return v => <[output_file o.1 output_dir := v]> fs
                 | Raise _ => fs
                 end) fs os.

Definition success (o : path * result json.value) : option json.value :=
  match o.2 with
  | Return v => Some v
  | Raise _ => None
  end.

Definition successes (os : list (path * result json.value)) : list json.value :=
  omap success os.

(** The elements a result contributes when it is a list *)
Definition items (result : json.value) : list json.value :=
  match result with
  | json.List l => l
  | _ => []
  end.

Definition is_list (result : json.value) : bool :=
  match result with
  | json.List _ => true
  | _ => false
  end.

(** The documents handed to the converter, in the order of the calls *)
Definition converted (tr : list event) : list path :=
  omap (λ e, match e with EvConvert p => Some p | _ => None end) tr.

End processor.

(** * main.py

    Importing [config] builds the configuration first; an exception there is
    not caught.  The script then creates [output/] and runs the batch with
    both shuffles enabled; a raised exception ends the process with a
    non-zero status. *)

Module main.

Section Main.

Variable converter_convert : path → option str.
Variable client_chat : list processor.event → processor.ChatRequest → option str.
Variable exists_ : path → bool.
Variable scandir : path → list str.
Variable SYS_PROMPT : str.
Variable TODAY : str.

Definition shuffle_individual_qa : bool := true.
Definition shuffle_combined_qa : bool := true.

Definition main (env : config.environ) : processor.M (list json.value) :=
  config ← processor.lift (config.Config__init__ env);
  let output_dir := Path (pystr "output") in
  processor.mkdir_exist_ok output_dir;;
  processor.process_multiple_documents
    converter_convert client_chat exists_ scandir SYS_PROMPT TODAY config
    (config.folder_path config) (Some output_dir)
    shuffle_individual_qa shuffle_combined_qa.

End Main.

(** The directory [main] creates and hands to the batch *)
Definition output_dir : path := Path (pystr "output").

End main.

(** * Concrete inputs used by the examples below *)

Module examples.

Definition env_8080 : config.environ :=
  {[ "OLLAMA_HOST"%string := pystr "0.0.0.0:8080" ]}.

Definition env_default : config.environ :=
  {[ "OLLAMA_HOST"%string := pystr "0.0.0.0:11434" ]}.

Definition env_complete : config.environ :=
  <[ "OLLAMA_HOST"%string := pystr "0.0.0.0:11434" ]>
  (<[ "OLLAMA_MODEL"%string := pystr "llama3" ]>
  (<[ "FOLDER_PATH"%string := pystr "docs" ]>
  {[ "FILE_PATH"%string := pystr "docs/a.txt" ]})).



(** The array [[1]] after a no-break space (U+00A0) *)
Definition nbsp_array : str := 160 :: pystr "[1]".

(** The scenario of the specification *)
Definition qa_array : str := jstr "[{'question':'Q','answer':'A'}]".

Definition qa_fenced : str :=
  utils.fenced (pystr "Sure, here is the JSON:" ++ [10]) (pystr "json") [10]
    qa_array [10].

(** A truncated array between spaces *)
Definition truncated : str := pystr " [1, ".

(** A batch: [docs/] holds [a.txt], [b.pdf], [c.md], [d.txt] and a file
    that is not a document; the chat service answers a bare array for
    [a.txt], a fenced array for [b.pdf], an object for [c.md] and fails for
    [d.txt]. *)
Definition convert (p : path) : option str := Some (name p).

Definition chat (tr : list processor.event) (r : processor.ChatRequest) : option str :=
  if bool_decide (processor.user r = pystr "a.txt") then Some (pystr "[1,2]")
  else if bool_decide (processor.user r = pystr "b.pdf")
       then Some (pystr "```json [3,4,5] ```")
  else if bool_decide (processor.user r = pystr "c.md") then Some (pystr "{}")
  else None.

Definition docs_folder : path := [pystr "docs"].
Definition notes_folder : path := [pystr "notes"].
Definition output : path := [pystr "output"].

Definition folder_exists (p : path) : bool :=
  bool_decide (p = docs_folder) || bool_decide (p = notes_folder).

Definition entries (p : path) : list str :=
  if bool_decide (p = docs_folder)
  then pystr <$> ["b.pdf"; "x.doc"; "a.txt"; "c.md"; "d.txt"]%string
  else if bool_decide (p = notes_folder)
  then pystr <$> ["readme"; "notes.json"]%string
  else [].

Definition today : str := pystr "20240101".

Definition cfg : config.Config :=
  {| config.ollama_host := pystr "http://localhost:11434";
     config.ollama_model := pystr "llama3";
     config.folder_path := docs_folder;
     config.file_path := [pystr "docs"; pystr "a.txt"];
     config.top_p := None;
     config.temperature := None;
     config.repeat_penaly := None;
     config.max_new_tokens := None |}.

Definition world0 : processor.World :=
  {| processor.dirs := ∅;
     processor.files := ∅;
     processor.rng := {| random.draws := λ n, (7 * n + 3)%nat; random.pos := 0 |};
     processor.trace := [] |}.

(** A chat service that always answers the same array, and a folder
    [drafts/] whose two documents the service of [chat] does not answer. *)
Definition chat_fixed (tr : list processor.event) (r : processor.ChatRequest)
    : option str := Some (pystr "[1,2]").





(** An object in a [json] fence, with text after the closing fence *)
Definition object_text : str := jstr "{'a': 1}".

Definition object_fenced_then_text : str :=
  utils.fenced [] (pystr "json") [10] object_text [10] ++ pystr " Done.".

(** A response cut off before its closing fence *)
Definition unterminated : str := pystr "```json" ++ [10] ++ pystr "[1, 2]".

End examples.

(** * Properties of the configuration loader *)

Module config_props.
Import config examples.

(** What [_get_ollama_host] computes from a non-empty host value. *)
Lemma get_ollama_host_eq (env : environ) (host : str) :
  getenv env "OLLAMA_HOST" = Some host → host ≠ [] →
  _get_ollama_host env =
    let h := if bool_decide (host = pystr "0.0.0.0:11434")
             then pystr "localhost:11434" else host in
    Return (if has_scheme h then h else pystr "http://" ++ h).
Proof.
  intros Hget Hne. unfold _get_ollama_host. rewrite Hget.
  destruct host as [|c h]; [done|]. cbv zeta.
  by destruct (has_scheme _).
Qed.

(** C10: a host value other than [0.0.0.0:11434] is never rewritten; it is
    returned as it is when it has a scheme and with [http://] in front of it
    otherwise, so the original host and port are kept. *)
Theorem other_host_preserved (env : environ) (host : str) :
  getenv env "OLLAMA_HOST" = Some host → host ≠ [] →
  host ≠ pystr "0.0.0.0:11434" →
  _get_ollama_host env =
    Return (if has_scheme host then host else pystr "http://" ++ host).
Proof.
  intros Hget Hne Hother. rewrite (get_ollama_host_eq env host Hget Hne).
  cbv zeta. by rewrite bool_decide_eq_false_2.
Qed.

Lemma other_host_preserved_witness :
  _get_ollama_host env_8080 = Return (pystr "http://0.0.0.0:8080").
Proof.
  apply (other_host_preserved env_8080 (pystr "0.0.0.0:8080"));
    [reflexivity | discriminate | discriminate].
Defined.

(** C5, as stated, fails: an all-interfaces address with another port is
    not rewritten to localhost. *)
Lemma all_interfaces_not_rewritten :
  ¬ (∀ (env : environ) (port : str),
       getenv env "OLLAMA_HOST" = Some (pystr "0.0.0.0:" ++ port) →
       _get_ollama_host env = Return (pystr "http://localhost:" ++ port)).
Proof.
  intros H. specialize (H env_8080 (pystr "8080") eq_refl).
  vm_compute in H. discriminate H.
Qed.

(** C5, amended: the host value [0.0.0.0:11434] is rewritten to
    [localhost:11434]; a host value without scheme gets [http://] in front
    (of the rewritten value), one with a scheme is returned as it is; so
    [OLLAMA_HOST=0.0.0.0:11434] yields [http://localhost:11434]. *)
Theorem default_host_rewritten (env : environ) (host : str) :
  getenv env "OLLAMA_HOST" = Some host → host ≠ [] →
  (host = pystr "0.0.0.0:11434" →
     _get_ollama_host env = Return (pystr "http://localhost:11434"))
  ∧ (has_scheme host = false →
     _get_ollama_host env =
       Return (pystr "http://" ++
               (if bool_decide (host = pystr "0.0.0.0:11434")
                then pystr "localhost:11434" else host)))
  ∧ (has_scheme host = true → _get_ollama_host env = Return host).
Proof.
  intros Hget Hne. rewrite (get_ollama_host_eq env host Hget Hne). cbv zeta.
  split_and!.
  - intros ->. reflexivity.
  - intros Hs. case_bool_decide as Hd; [by subst|]. by rewrite Hs.
  - intros Hs. case_bool_decide as Hd; [by subst|]. by rewrite Hs.
Qed.

Lemma default_host_rewritten_witness :
  _get_ollama_host env_default = Return (pystr "http://localhost:11434").
Proof.
  apply (default_host_rewritten env_default (pystr "0.0.0.0:11434"));
    [reflexivity | discriminate | reflexivity].
Defined.

(** The outcome of [Config()] is decided by the first required variable, in
    the order of the checks, that is absent or empty. *)
Lemma Config_init_first_missing (env : environ) :
  match List.find (missing env) required_vars with
  | Some var => Config__init__ env = Raise (required var)
  | None => ∃ cfg, Config__init__ env = Return cfg
  end.
Proof.
  unfold Config__init__, _get_ollama_host, required_vars, missing, getenv.
  cbn [List.find].
  destruct (env !! "OLLAMA_HOST"%string) as [[|c h]|]; cbn; try done.
  destruct (env !! "OLLAMA_MODEL"%string) as [[|c1 h1]|]; cbn;
    try (by destruct (has_scheme _)).
  destruct (env !! "FOLDER_PATH"%string) as [[|c2 h2]|]; cbn;
    try (by destruct (has_scheme _)).
  destruct (env !! "FILE_PATH"%string) as [[|c3 h3]|]; cbn;
    try (by destruct (has_scheme _)).
  destruct (has_scheme _); eauto.
Qed.

(** C6: when one of the four required values is absent or empty, building
    the configuration raises the error that names a missing variable (the
    first one in the order of the checks), and the program stops there with
    the world untouched; when all four are present it succeeds. *)
Theorem required_values (env : environ) :
  (∀ var, var ∈ required_vars → missing env var = true →
     ∃ var', var' ∈ required_vars ∧ missing env var' = true
       ∧ Config__init__ env = Raise (required var')
       ∧ ∀ convert chat ex sd prompt today w,
           main.main convert chat ex sd prompt today env w
           = (Raise (required var'), w))
  ∧ ((∀ var, var ∈ required_vars → missing env var = false) →
     ∃ cfg, Config__init__ env = Return cfg).
Proof.
  pose proof (Config_init_first_missing env) as Hinit.
  destruct (List.find (missing env) required_vars) as [var'|] eqn:Hfind.
  - apply List.find_some in Hfind as [Hin Hmiss]. split.
    + intros _ _ _. exists var'. split_and!; [by apply list_elem_of_In | done | done |].
      intros. unfold main.main. cbn. unfold processor.bind, processor.lift.
      by rewrite Hinit.
    + intros Hall. apply list_elem_of_In, Hall in Hin. congruence.
  - split; [|done]. intros var Hin Hmiss.
    apply list_elem_of_In in Hin.
    pose proof (List.find_none _ _ Hfind var Hin). congruence.
Qed.

Lemma required_values_witness :
  (∃ var', var' ∈ required_vars ∧ missing env_8080 var' = true
     ∧ Config__init__ env_8080 = Raise (required var')
     ∧ ∀ convert chat ex sd prompt today w,
         main.main convert chat ex sd prompt today env_8080 w
         = (Raise (required var'), w))
  ∧ (∃ cfg, Config__init__ env_complete = Return cfg).
Proof.
  split.
  - apply (proj1 (required_values env_8080) "FILE_PATH"%string);
      [repeat constructor | reflexivity].
  - apply (proj2 (required_values env_complete)).
    intros var Hin. repeat (apply elem_of_cons in Hin as [->|Hin]; [reflexivity|]).
    by apply not_elem_of_nil in Hin.
Defined.

End config_props.

(** * Properties of the shuffle *)

Module shuffle_props.
Import random.

Lemma swap_Permutation {A} (x : list A) (i j : nat) : swap x i j ≡ₚ x.
Proof.
  unfold swap.
  destruct (x !! i) as [a|] eqn:Hi; [|done].
  destruct (x !! j) as [b|] eqn:Hj; [|done].
  by apply Permutation_insert_swap.
Qed.

Lemma shuffle_from_Permutation {A} (i : nat) (x : list A) (g : Random) :
  (shuffle_from i x g).1 ≡ₚ x.
Proof.
  revert x g. induction i as [|i IH]; intros x g; [done|].
  cbn [shuffle_from]. destruct (_randbelow (S (S i)) g) as [j g'].
  rewrite IH. apply swap_Permutation.
Qed.

Lemma shuffle_Permutation {A} (x : list A) (g : Random) :
  (shuffle x g).1 ≡ₚ x.
Proof. apply shuffle_from_Permutation. Qed.

(** C3: the shuffle used by the document processor and by the batch driver
    returns a permutation of its argument: same multiset, same length, the
    same elements. *)
Theorem shuffle_is_permutation (x : list json.value) (w : processor.World) :
  ∃ x', (processor.shuffle x w).1 = Return x'
    ∧ x' ≡ₚ x
    ∧ length x' = length x
    ∧ ∀ a, a ∈ x' ↔ a ∈ x.
Proof.
  unfold processor.shuffle.
  pose proof (shuffle_Permutation x (processor.rng w)) as Hp.
  destruct (shuffle x (processor.rng w)) as [x' g]. cbn in *.
  exists x'. split_and!; [done | done | by rewrite Hp |].
  intros a. by rewrite Hp.
Qed.

End shuffle_props.

(** * Properties of the document processor and of the batch driver *)

Module processor_props.
Import processor.

Section Processor.

#[local] Opaque qa_dataset.

Variable converter_convert : path → option str.
Variable client_chat : list event → ChatRequest → option str.
Variable exists_ : path → bool.
Variable scandir : path → list str.
Variable SYS_PROMPT : str.
Variable TODAY : str.
Variable config : config.Config.

Local Notation process_document :=
  (process_document converter_convert client_chat SYS_PROMPT config).
Local Notation process_each :=
  (process_each converter_convert client_chat SYS_PROMPT config).
Local Notation outcomes :=
  (outcomes converter_convert client_chat SYS_PROMPT config).
Local Notation process_multiple_documents :=
  (process_multiple_documents converter_convert client_chat exists_ scandir
     SYS_PROMPT TODAY config).
Local Notation doc_files := (doc_files scandir).

Lemma parent_joinpath (d : path) (nm : str) : parent (joinpath d nm) = d.
Proof. unfold parent, joinpath. apply removelast_last. Qed.

Lemma is_dir_mono (w w' : World) (d : path) :
  dirs w ⊆ dirs w' → is_dir w d = true → is_dir w' d = true.
Proof.
  unfold is_dir. intros Hsub.
  rewrite !orb_true_iff, !bool_decide_eq_true. set_solver.
Qed.

(** ** The enumeration of the documents *)

Lemma str_le_total (a b : str) : str_le a b = true ∨ str_le b a = true.
Proof.
  revert b. induction a as [|x a IH]; intros [|y b]; cbn; auto.
  destruct (N.lt_trichotomy x y) as [Hlt|[->|Hgt]].
  - left. apply orb_true_iff. left. by apply N.ltb_lt.
  - rewrite N.ltb_irrefl, N.eqb_refl. cbn. apply IH.
  - right. apply orb_true_iff. left. by apply N.ltb_lt.
Qed.

#[local] Instance path_order_total : Total path_order.
Proof.
  intros p. unfold path_order.
  induction p as [|x p IH]; intros [|y q]; cbn; auto.
  destruct (decide (x = y)) as [->|Hne].
  - rewrite !bool_decide_eq_true_2 by done. apply IH.
  - rewrite !bool_decide_eq_false_2 by done. apply str_le_total.
Qed.

(** The documents are the entries of the folder that end in a supported
    extension, each once, in ascending order of their paths. *)
Lemma doc_files_spec folder :
  Sorted path_order (doc_files folder)
  ∧ NoDup (doc_files folder)
  ∧ ∀ p, p ∈ doc_files folder ↔
         ∃ nm ext, nm ∈ scandir folder ∧ ext ∈ supported_extensions
                   ∧ endswith nm ext = true ∧ p = joinpath folder nm.
Proof.
  unfold processor.doc_files. split_and!.
  - apply Sorted_merge_sort. apply _.
  - rewrite merge_sort_Permutation. apply NoDup_elements.
  - intros p. rewrite merge_sort_Permutation, elem_of_elements.
    assert (∀ exts (acc : gset path),
              p ∈ foldl (λ acc ext, acc ∪ list_to_set (glob scandir folder ext)) acc exts
              ↔ p ∈ acc ∨ ∃ ext, ext ∈ exts ∧ p ∈ glob scandir folder ext) as Hfold.
    { induction exts as [|e exts IH]; intros acc; cbn.
      - split; [by left|]. intros [?|(? & []%not_elem_of_nil & _)]; done.
      - rewrite IH, elem_of_union, elem_of_list_to_set. split.
        + intros [[?|?]|(ext & ? & ?)]; [by left| |].
          * right. exists e. split; [by left|done].
          * right. exists ext. split; [by right|done].
        + intros [?|(ext & [->|?]%elem_of_cons & ?)]; [by left; left|by left; right|].
          right. by exists ext. }
    rewrite Hfold. unfold glob. split.
    + intros [[]%not_elem_of_empty|(ext & Hext & Hp)].
      apply list_elem_of_fmap in Hp as (nm & -> & Hnm).
      apply list_elem_of_filter in Hnm as [Hends Hnm]. by exists nm, ext.
    + intros (nm & ext & Hnm & Hext & Hends & ->). right. exists ext. split; [done|].
      apply list_elem_of_fmap. exists nm. split; [done|].
      by apply list_elem_of_filter.
Qed.

Lemma converted_app (t1 t2 : list event) :
  converted (t1 ++ t2) = converted t1 ++ converted t2.
Proof. apply omap_app. Qed.

(** One run of the document processor: it calls the converter once, first,
    never removes a directory, and when it succeeds the output directory
    exists and the document's own file holds the returned value. *)
Lemma process_document_inv doc output_dir shuffle_qa w r w' :
  process_document doc output_dir shuffle_qa w = (r, w') →
  converted (trace w') = converted (trace w) ++ [doc]
  ∧ dirs w ⊆ dirs w'
  ∧ ∀ v, r = Return v →
      ∀ d, output_dir = Some d →
        is_dir w' d = true
        ∧ files w' !! joinpath d (stem doc ++ qa_dataset) = Some v.
Proof.
  unfold processor.process_document, mbind, M_bind, mret, M_ret, bind, ret,
    md_converter, llm_qa_generator, lift, shuffle, mkdir_exist_ok, dump, log.
  intros H.
  repeat (case_match; simplify_eq); cbn [trace dirs files];
    rewrite ?converted_app, ?app_nil_r; cbn [converted omap app];
    (split; [try done|split; [set_solver|]]);
    try (intros; simplify_eq; fail);
    intros v' ? d' ?; simplify_eq;
    (split; [|by apply lookup_insert_eq]);
    match goal with
    | Hd : is_dir _ (parent (joinpath _ _)) = true |- _ =>
        rewrite parent_joinpath in Hd; revert Hd; unfold is_dir; cbn [dirs];
        try done
    end.
Qed.

(** The loop of the batch driver keeps the successes of [outcomes]. *)
Lemma process_each_outcomes docs output_dir shuffle_qa acc w :
  process_each docs output_dir shuffle_qa acc w
  = (Return (acc ++ successes (outcomes docs output_dir shuffle_qa w).1),
     (outcomes docs output_dir shuffle_qa w).2).
Proof.
  revert acc w. induction docs as [|doc docs IH]; intros acc w.
  - cbn. by rewrite app_nil_r.
  - cbn [processor.process_each processor.outcomes].
    destruct (process_document doc output_dir shuffle_qa w) as [[v|e] w1].
    + rewrite IH.
      destruct (outcomes docs output_dir shuffle_qa w1) as [rs w2].
      cbn. by rewrite <- app_assoc.
    + rewrite IH.
      by destruct (outcomes docs output_dir shuffle_qa w1) as [rs w2].
Qed.

Lemma outcomes_inv docs output_dir shuffle_qa w :
  (outcomes docs output_dir shuffle_qa w).1.*1 = docs
  ∧ converted (trace (outcomes docs output_dir shuffle_qa w).2)
    = converted (trace w) ++ docs
  ∧ dirs w ⊆ dirs (outcomes docs output_dir shuffle_qa w).2
  ∧ (successes (outcomes docs output_dir shuffle_qa w).1 ≠ [] →
     ∀ d, output_dir = Some d →
       is_dir (outcomes docs output_dir shuffle_qa w).2 d = true).
Proof.
  revert w. induction docs as [|doc docs IH]; intros w.
  - cbn. by rewrite app_nil_r.
  - cbn [processor.outcomes].
    destruct (process_document doc output_dir shuffle_qa w) as [r w1] eqn:Hpd.
    apply process_document_inv in Hpd as (Htr & Hdirs & Hok).
    specialize (IH w1). destruct (outcomes docs output_dir shuffle_qa w1) as [rs w2].
    cbn in *. destruct IH as (IH1 & IH2 & IH3 & IH4).
    split_and!.
    + by rewrite IH1.
    + by rewrite IH2, Htr, <- app_assoc.
    + set_solver.
    + intros Hne d ->. destruct r as [v|e].
      * eapply is_dir_mono; [done|]. by eapply Hok.
      * by apply IH4.
Qed.

Lemma flatten_concat (rs : list json.value) :
  flatten rs = concat (items <$> rs).
Proof.
  unfold flatten.
  assert (∀ acc, foldl (λ combined_qa result,
                          match result with
                          | json.List l => combined_qa ++ l
                          | _ => combined_qa
                          end) acc rs = acc ++ concat (items <$> rs)) as H.
  { induction rs as [|r rs IH]; intros acc; cbn.
    - by rewrite app_nil_r.
    - rewrite IH. destruct r; cbn; by rewrite ?app_assoc. }
  apply (H []).
Qed.

Lemma shuffle_nil (g : random.Random) :
  random.shuffle (@nil json.value) g = ([], g).
Proof. reflexivity. Qed.





Lemma doc_files_none folder :
  (∀ nm ext, nm ∈ scandir folder → ext ∈ supported_extensions →
     endswith nm ext = false) →
  doc_files folder = [].
Proof.
  intros Hnone. unfold processor.doc_files.
  assert (∀ ext, ext ∈ supported_extensions → glob scandir folder ext = []) as Hglob.
  { intros ext Hext. unfold glob.
    assert (∀ nms : list str,
              (∀ nm, nm ∈ nms → endswith nm ext = false) →
              filter (λ nm, endswith nm ext = true) nms = []) as Hfilter.
    { induction nms as [|nm nms IH]; intros Hall; [done|].
      rewrite filter_cons_False.
      - apply IH. intros nm' Hin. apply Hall. by right.
      - rewrite (Hall nm) by left. done. }
    rewrite Hfilter; [done|]. intros nm Hnm. by apply Hnone. }
  assert (∀ exts (acc : gset path),
            (∀ ext, ext ∈ exts → glob scandir folder ext = []) →
            foldl (λ acc ext, acc ∪ list_to_set (glob scandir folder ext)) acc exts
            = acc) as Hfold.
  { induction exts as [|e exts IH]; intros acc Hall; [done|]. cbn.
    rewrite (Hall e) by left. cbn. rewrite (right_id_L ∅ (∪)).
    apply IH. intros ext Hin. apply Hall. by right. }
  rewrite Hfold by done. by rewrite elements_empty.
Qed.

(** C8: on an existing folder none of whose entries ends in a supported
    extension the batch returns the empty list and leaves the world as it
    was, so no combined file is written; on a folder that does not exist it
    raises a [ValueError]. *)
Theorem no_supported_documents folder output_dir shuffle_qa shuffle_combined w :
  (exists_ folder = true →
   (∀ nm ext, nm ∈ scandir folder → ext ∈ supported_extensions →
      endswith nm ext = false) →
   process_multiple_documents folder output_dir shuffle_qa shuffle_combined w
   = (Return [], w))
  ∧ (exists_ folder = false →
     ∃ msg,
       process_multiple_documents folder output_dir shuffle_qa shuffle_combined w
       = (Raise (ValueError msg), w)).
Proof.
  unfold processor.process_multiple_documents. split.
  - intros -> Hnone. by rewrite (doc_files_none folder Hnone).
  - intros ->. by eexists.
Qed.


End Processor.

Import examples.



Lemma no_supported_documents_witness :
  process_multiple_documents convert chat folder_exists entries [] today cfg
    notes_folder (Some output) true true world0
  = (Return [], world0)
  ∧ ∃ msg,
      process_multiple_documents convert chat folder_exists entries [] today cfg
        [pystr "missing"] (Some output) true true world0
      = (Raise (ValueError msg), world0).
Proof.
  split.
  - apply (proj1 (no_supported_documents convert chat folder_exists entries []
                    today cfg notes_folder (Some output) true true world0));
      [reflexivity|].
    intros nm ext Hnm Hext.
    change (entries notes_folder) with (pystr <$> ["readme"; "notes.json"]%string) in Hnm.
    repeat (apply elem_of_cons in Hnm as [->|Hnm]; [
      repeat (apply elem_of_cons in Hext as [->|Hext]; [reflexivity|]);
      by apply not_elem_of_nil in Hext |]).
    by apply not_elem_of_nil in Hnm.
  - apply (proj2 (no_supported_documents convert chat folder_exists entries []
                    today cfg [pystr "missing"] (Some output) true true world0)).
    reflexivity.
Defined.


End processor_props.

(** * Properties of the JSON decoder *)

Module json_props.
Import json.

Lemma is_ws_cases (w : N) : is_ws w = true → w = 32 ∨ w = 9 ∨ w = 10 ∨ w = 13.
Proof.
  unfold is_ws. rewrite !orb_true_iff, !N.eqb_eq. tauto.
Qed.

(** [case_ws Hw] replaces a whitespace character by its four values. *)
Ltac case_ws Hw :=
  apply is_ws_cases in Hw; destruct Hw as [-> | [-> | [-> | ->]]].

(** The remaining input, with a character put back at its end *)
Local Notation keep w := (fmap (M := option) (prod_map id (λ r : str, r ++ [w]))).

(** ** Appending a whitespace character to the input *)

Lemma skip_ws_snoc (x : str) (w : N) :
  is_ws w = true →
  skip_ws (x ++ [w]) = match skip_ws x with [] => [] | y => y ++ [w] end.
Proof.
  intros Hw. induction x as [|a x IH]; cbn.
  - by rewrite Hw.
  - destruct (is_ws a); [done|]. reflexivity.
Qed.

Lemma span_digits_snoc (x : str) (w : N) :
  is_digit w = false →
  span_digits (x ++ [w]) = prod_map id (λ r, r ++ [w]) (span_digits x).
Proof.
  intros Hw. induction x as [|a x IH]; cbn.
  - by rewrite Hw.
  - destruct (is_digit a); [|done]. rewrite IH.
    by destruct (span_digits x).
Qed.

Lemma match_int_snoc (x : str) (w : N) :
  is_ws w = true → match_int (x ++ [w]) = keep w (match_int x).
Proof.
  intros Hw. unfold match_int, match_sign.
  destruct x as [|a x]; [by case_ws Hw|]. cbn [app].
  assert (∀ y : str, match y ++ [w] with
                     | c :: s2 => if c =? 48 then Some ([a; c], s2)
                                  else if is_digit c then
                                    let '(ds, r) := span_digits s2 in Some (a :: c :: ds, r)
                                  else None
                     | [] => None
                     end
                     = keep w (match y with
                     | c :: s2 => if c =? 48 then Some ([a; c], s2)
                                  else if is_digit c then
                                    let '(ds, r) := span_digits s2 in Some (a :: c :: ds, r)
                                  else None
                     | [] => None
                     end)) as Hsigned.
  { intros [|c y]; [by case_ws Hw|]. cbn [app].
    destruct (c =? 48); [done|]. destruct (is_digit c); [|done].
    rewrite span_digits_snoc by (by case_ws Hw). by destruct (span_digits y). }
  destruct (a =? 45).
  - apply Hsigned.
  - cbn [app]. destruct (a =? 48); [done|]. destruct (is_digit a); [|done].
    rewrite span_digits_snoc by (by case_ws Hw). by destruct (span_digits x).
Qed.

Lemma match_frac_snoc (x : str) (w : N) :
  is_ws w = true →
  match_frac (x ++ [w]) = prod_map id (λ r, r ++ [w]) (match_frac x).
Proof.
  intros Hw. unfold match_frac.
  destruct x as [|c [|d x]]; cbn [app].
  - done.
  - assert (is_digit w = false) as -> by (by case_ws Hw).
    by rewrite andb_false_r.
  - destruct ((c =? 46) && is_digit d); [|done].
    rewrite span_digits_snoc by (by case_ws Hw). by destruct (span_digits x).
Qed.

Lemma match_exp_snoc (x : str) (w : N) :
  is_ws w = true →
  match_exp (x ++ [w]) = prod_map id (λ r, r ++ [w]) (match_exp x).
Proof.
  intros Hw. unfold match_exp, match_exp_sign.
  assert (is_digit w = false) as Hd by (by case_ws Hw).
  destruct x as [|e x]; [by case_ws Hw|]. cbn [app].
  destruct ((e =? 101) || (e =? 69)); [|done].
  destruct x as [|c x]; cbn [app].
  - replace ((w =? 43) || (w =? 45)) with false by (by case_ws Hw).
    cbn. by rewrite Hd.
  - destruct ((c =? 43) || (c =? 45)).
    + rewrite span_digits_snoc by done.
      destruct (span_digits x) as [[|d ds] r]; done.
    + change (c :: x ++ [w]) with ((c :: x) ++ [w]).
      rewrite (span_digits_snoc (c :: x)) by done.
      destruct (span_digits (c :: x)) as [[|d ds] r]; done.
Qed.

Lemma match_number_snoc (x : str) (w : N) :
  is_ws w = true → match_number (x ++ [w]) = keep w (match_number x).
Proof.
  intros Hw. unfold match_number. rewrite match_int_snoc by done.
  destruct (match_int x) as [[i s1]|]; [|done]. cbn.
  rewrite match_frac_snoc by done. destruct (match_frac s1) as [fr s2]. cbn.
  rewrite match_exp_snoc by done. destruct (match_exp s2) as [ex s3]. cbn.
  by destruct fr, ex.
Qed.

Lemma startswith_snoc (x lit : str) (w : N) :
  Forall (λ c, c ≠ w) lit →
  startswith (x ++ [w]) lit = startswith x lit.
Proof.
  intros Hlit. revert x. induction Hlit as [|c lit Hc _ IH]; intros x.
  - by destruct x.
  - destruct x as [|a x]; cbn.
    + apply andb_false_intro1. by apply N.eqb_neq.
    + by rewrite IH.
Qed.

Lemma startswith_length (x lit : str) :
  startswith x lit = true → (length lit ≤ length x)%nat.
Proof.
  revert x. induction lit as [|c lit IH]; intros x; cbn; [lia|].
  destruct x as [|a x]; [done|]. intros [_ H]%andb_true_iff.
  apply IH in H. cbn. lia.
Qed.

Lemma literal_snoc (lit x : str) (w : N) :
  Forall (λ c, c ≠ w) lit →
  literal lit (x ++ [w]) = fmap (M := option) (λ r, r ++ [w]) (literal lit x).
Proof.
  intros Hlit. unfold literal. rewrite startswith_snoc by done.
  destruct (startswith x lit) eqn:Hs; [|done]. cbn.
  apply startswith_length in Hs. by rewrite drop_app_le.
Qed.

Lemma hexval_ws (w : N) : is_ws w = true → hexval w = None.
Proof. intros Hw. by case_ws Hw. Qed.

Lemma decode_uXXXX_snoc (x : str) (w : N) :
  is_ws w = true → decode_uXXXX (x ++ [w]) = keep w (decode_uXXXX x).
Proof.
  intros Hw. unfold decode_uXXXX.
  destruct x as [|a [|b [|c [|d x]]]]; cbn [app]; try done.
  - rewrite (hexval_ws w Hw).
    destruct (hexval a); [|done]. destruct (hexval b); [|done].
    by destruct (hexval c).
  - destruct (hexval a); [|done]. destruct (hexval b); [|done].
    destruct (hexval c); [|done]. by destruct (hexval d).
Qed.

Lemma decode_escape_snoc (x : str) (w : N) :
  is_ws w = true → decode_escape (x ++ [w]) = keep w (decode_escape x).
Proof.
  intros Hw. unfold decode_escape.
  destruct x as [|esc s1]; [by case_ws Hw|]. cbn [app].
  destruct (negb (esc =? 117)); [by destruct (BACKSLASH esc)|].
  rewrite decode_uXXXX_snoc by done.
  destruct (decode_uXXXX s1) as [[uni s2]|]; [|done]. cbn.
  rewrite startswith_snoc by (repeat constructor; by case_ws Hw).
  destruct (is_high_surrogate uni && startswith s2 [backslash; 117]) eqn:Hhigh;
    [|done].
  apply andb_true_iff in Hhigh as [_ Hs]. apply startswith_length in Hs.
  rewrite drop_app_le by done. rewrite decode_uXXXX_snoc by done.
  destruct (decode_uXXXX (drop 2 s2)) as [[uni2 s3]|]; [|done]. cbn.
  by destruct (is_low_surrogate uni2).
Qed.

Lemma scanstring_snoc (f : nat) (x : str) (w : N) :
  is_ws w = true → scanstring f (x ++ [w]) = keep w (scanstring f x).
Proof.
  intros Hw. revert x. induction f as [|f IH]; intros x; [done|].
  destruct x as [|c s1].
  - cbn [app scanstring].
    assert (scanstring f [] = None) as Hnil by (by destruct f).
    rewrite Hnil. by case_ws Hw.
  - cbn [app scanstring]. destruct (c =? quote); [done|].
    destruct (c =? backslash).
    + rewrite decode_escape_snoc by done.
      destruct (decode_escape s1) as [[ch s2]|]; [|done]. cbn.
      rewrite IH. by destruct (scanstring f s2) as [[chunks r]|].
    + destruct (c <=? 31); [done|].
      rewrite IH. by destruct (scanstring f s1) as [[chunks r]|].
Qed.

(** ** What a scanner consumes *)

Lemma skip_ws_split (x : str) :
  ∃ ws, x = ws ++ skip_ws x ∧ Forall (λ c, is_ws c = true) ws.
Proof.
  induction x as [|a x (ws & Hx & Hws)]; [by exists []|]. cbn.
  destruct (is_ws a) eqn:Ha.
  - exists (a :: ws). split; [by rewrite Hx at 1 | by constructor].
  - by exists [].
Qed.

Lemma skip_ws_length (x : str) : (length (skip_ws x) ≤ length x)%nat.
Proof.
  destruct (skip_ws_split x) as (ws & Hx & _). rewrite Hx at 2.
  rewrite length_app. lia.
Qed.

Lemma skip_ws_head (x : str) (c : N) (y : str) :
  skip_ws x = c :: y → is_ws c = false.
Proof.
  induction x as [|a x IH]; cbn; [done|].
  destruct (is_ws a) eqn:Ha; [done|]. by intros [= <- _].
Qed.

Lemma skip_ws_all (ws : str) :
  Forall (λ c, is_ws c = true) ws → skip_ws ws = [].
Proof. induction 1 as [|a ws Ha _ IH]; cbn; [done|]. by rewrite Ha. Qed.

Lemma skip_ws_app (ws x : str) :
  Forall (λ c, is_ws c = true) ws → skip_ws (ws ++ x) = skip_ws x.
Proof. induction 1 as [|a ws Ha _ IH]; cbn; [done|]. by rewrite Ha. Qed.

Lemma span_digits_split (x : str) :
  x = (span_digits x).1 ++ (span_digits x).2
  ∧ Forall (λ c, is_digit c = true) (span_digits x).1.
Proof.
  induction x as [|a x [IH1 IH2]]; cbn; [done|].
  destruct (is_digit a) eqn:Ha; [|done].
  destruct (span_digits x) as [ds r]. cbn in *. split; [by f_equal|].
  by constructor.
Qed.

Lemma ends_in_digits (c : str) (a : N) (ds : str) :
  is_digit a = true → Forall (λ c, is_digit c = true) ds →
  ends_in is_digit (c ++ a :: ds).
Proof.
  intros Ha Hds. destruct (decide (ds = [])) as [->|Hne].
  - by exists c, a.
  - destruct (exists_last Hne) as (ds' & b & ->).
    apply Forall_app in Hds as [_ Hb]. inversion_clear Hb.
    exists (c ++ a :: ds'), b. split; [apply (app_assoc c (a :: ds') [b])|done].
Qed.

Lemma match_int_split (x i r : str) :
  match_int x = Some (i, r) → x = i ++ r ∧ ends_in is_digit i.
Proof.
  unfold match_int, match_sign.
  assert (∀ (sign y : str),
    match y with
    | c :: s2 => if c =? 48 then Some (sign ++ [c], s2)
                 else if is_digit c then
                   let '(ds, r) := span_digits s2 in Some (sign ++ c :: ds, r)
                 else None
    | [] => None
    end = Some (i, r) → sign ++ y = i ++ r ∧ ends_in is_digit i) as Hbody.
  { intros sign [|c s2]; [done|].
    destruct (c =? 48) eqn:Hc.
    - intros [= <- <-]. split; [by rewrite <- app_assoc|].
      apply N.eqb_eq in Hc as ->. by exists sign, 48.
    - destruct (is_digit c) eqn:Hd; [|done].
      destruct (span_digits_split s2) as [Hs Hds].
      destruct (span_digits s2) as [ds r']. cbn in *. intros [= <- <-].
      split; [by rewrite <- app_assoc, Hs|]. by apply ends_in_digits. }
  destruct x as [|a x]; [done|].
  destruct (a =? 45); [apply (Hbody [a] x) | apply (Hbody [] (a :: x))].
Qed.

Lemma match_frac_split (x : str) :
  x = (match_frac x).1 ++ (match_frac x).2
  ∧ ((match_frac x).1 = [] ∨ ends_in is_digit (match_frac x).1).
Proof.
  unfold match_frac. destruct x as [|c [|d x]]; try (split; [done|by left]).
  destruct ((c =? 46) && is_digit d) eqn:Hcd; [|split; [done|by left]].
  apply andb_true_iff in Hcd as [_ Hd].
  destruct (span_digits_split x) as [Hs Hds].
  destruct (span_digits x) as [ds r]. cbn in *. split; [by rewrite Hs at 1|].
  right. by apply (ends_in_digits [c]).
Qed.

Lemma match_exp_split (x : str) :
  x = (match_exp x).1 ++ (match_exp x).2
  ∧ ((match_exp x).1 = [] ∨ ends_in is_digit (match_exp x).1).
Proof.
  unfold match_exp, match_exp_sign. destruct x as [|e s1]; [split; [done|by left]|].
  destruct ((e =? 101) || (e =? 69)); [|split; [done|by left]].
  assert (∀ (sg s2 : str), s1 = sg ++ s2 →
    let res := match span_digits s2 with
               | ([], _) => ([], e :: s1)
               | (ds, r) => (e :: sg ++ ds, r)
               end in
    e :: s1 = res.1 ++ res.2 ∧ (res.1 = [] ∨ ends_in is_digit res.1)) as Hbody.
  { intros sg s2 Hs1. destruct (span_digits_split s2) as [Hs Hds].
    destruct (span_digits s2) as [[|d ds] r]; cbn in *; [split; [done|by left]|].
    split; [by rewrite Hs1, Hs, <- app_assoc|]. right.
    apply Forall_cons in Hds as [Hd Hds]. by apply (ends_in_digits (e :: sg)). }
  destruct s1 as [|c s']; [apply (Hbody [] []); done|].
  destruct ((c =? 43) || (c =? 45)); [by apply (Hbody [c] s') | by apply (Hbody [] (c :: s'))].
Qed.

Lemma ends_in_app (P : N → bool) (c1 c2 : str) :
  ends_in P c2 → ends_in P (c1 ++ c2).
Proof. intros (c' & b & -> & Hb). exists (c1 ++ c'), b. by rewrite <- app_assoc. Qed.

Lemma match_number_split (x : str) (v : value) (r : str) :
  match_number x = Some (v, r) → ∃ c, x = c ++ r ∧ ends_in is_digit c.
Proof.
  unfold match_number.
  destruct (match_int x) as [[i s1]|] eqn:Hi; [|done].
  apply match_int_split in Hi as [-> Hend].
  destruct (match_frac_split s1) as [Hf Hfe].
  destruct (match_frac s1) as [fr s2]. cbn in *.
  destruct (match_exp_split s2) as [He Hee].
  destruct (match_exp s2) as [ex s3]. cbn in *.
  intros Hres. exists (i ++ fr ++ ex).
  assert (r = s3) as -> by (by destruct fr, ex; injection Hres).
  split; [by rewrite Hf, He, <- !app_assoc|].
  destruct Hee as [->|Hee]; [|by do 2 apply ends_in_app].
  rewrite app_nil_r. destruct Hfe as [->|Hfe]; [by rewrite app_nil_r|].
  by apply ends_in_app.
Qed.

Lemma startswith_split (x lit : str) :
  startswith x lit = true → x = lit ++ drop (length lit) x.
Proof.
  revert x. induction lit as [|c lit IH]; intros x; cbn; [done|].
  destruct x as [|a x]; [done|].
  intros [->%N.eqb_eq H]%andb_true_iff. cbn. f_equal. by apply IH.
Qed.

Lemma literal_split (lit x r : str) : literal lit x = Some r → x = lit ++ r.
Proof.
  unfold literal. destruct (startswith x lit) eqn:Hs; [|done].
  intros [= <-]. by apply startswith_split.
Qed.

Lemma decode_uXXXX_split (s : str) (u : N) (r : str) :
  decode_uXXXX s = Some (u, r) → ∃ c, s = c ++ r ∧ length c = 4%nat.
Proof.
  unfold decode_uXXXX. destruct s as [|a [|b [|c [|d s]]]]; try done.
  intros H. exists [a; b; c; d].
  destruct (hexval a), (hexval b), (hexval c), (hexval d); try done.
  cbn in H. by injection H as _ <-.
Qed.

Lemma decode_escape_split (s : str) (ch : N) (r : str) :
  decode_escape s = Some (ch, r) → ∃ c, s = c ++ r ∧ c ≠ [].
Proof.
  unfold decode_escape. destruct s as [|esc s1]; [done|].
  destruct (negb (esc =? 117)).
  { destruct (BACKSLASH esc); [|done]. intros [= _ <-]. by exists [esc]. }
  destruct (decode_uXXXX s1) as [[uni s2]|] eqn:H1; [|done]. cbn.
  apply decode_uXXXX_split in H1 as (c1 & -> & _).
  destruct (is_high_surrogate uni && startswith s2 [backslash; 117]) eqn:Hh.
  - apply andb_true_iff in Hh as [_ Hs]. apply startswith_split in Hs.
    destruct (decode_uXXXX (drop 2 s2)) as [[uni2 s3]|] eqn:H2; [|done]. cbn.
    apply decode_uXXXX_split in H2 as (c2 & H2 & _). cbn [length] in Hs.
    destruct (is_low_surrogate uni2); intros [= _ <-].
    + exists (esc :: c1 ++ [backslash; 117] ++ c2). split; [|done].
      rewrite Hs at 1. rewrite H2. cbn. by rewrite <- !app_assoc.
    + by exists (esc :: c1).
  - intros [= _ <-]. by exists (esc :: c1).
Qed.

Lemma scanstring_split (f : nat) (x chunks r : str) :
  scanstring f x = Some (chunks, r) → ∃ c, x = c ++ quote :: r.
Proof.
  revert x chunks. induction f as [|f IH]; intros x chunks; [done|].
  destruct x as [|c s1]; [done|]. cbn [scanstring].
  destruct (c =? quote) eqn:Hq.
  { apply N.eqb_eq in Hq as ->. intros [= _ <-]. by exists []. }
  destruct (c =? backslash).
  - destruct (decode_escape s1) as [[ch s2]|] eqn:He; [|done]. cbn.
    apply decode_escape_split in He as (c1 & -> & _).
    destruct (scanstring f s2) as [[k r']|] eqn:Hs; [|done]. cbn.
    intros [= _ <-]. apply IH in Hs as (c2 & ->).
    exists (c :: c1 ++ c2). cbn. by rewrite <- app_assoc.
  - destruct (c <=? 31); [done|].
    destruct (scanstring f s1) as [[k r']|] eqn:Hs; [|done]. cbn.
    intros [= _ <-]. apply IH in Hs as (c2 & ->). by exists (c :: c2).
Qed.

Lemma scanstring_fuel (f f' : nat) (x : str) :
  (length x < f)%nat → (length x < f')%nat → scanstring f x = scanstring f' x.
Proof.
  revert f' x. induction f as [|f IH]; intros f' x Hf Hf'; [lia|].
  destruct f' as [|f']; [lia|].
  destruct x as [|c s1]; [done|]. cbn [scanstring]. cbn [length] in Hf, Hf'.
  destruct (c =? quote); [done|]. destruct (c =? backslash).
  - destruct (decode_escape s1) as [[ch s2]|] eqn:He; [|done]. cbn.
    apply decode_escape_split in He as (c1 & -> & Hc1).
    rewrite length_app in Hf, Hf'. rewrite (IH f' s2) by lia. done.
  - destruct (c <=? 31); [done|]. rewrite (IH f' s1) by lia. done.
Qed.

(** A successful scan consumes a non-empty prefix of its input that ends in
    the character that closes the value. *)
Lemma scan_split (f : nat) :
  (∀ x v r, scan_once f x = Some (v, r) → ∃ c, x = c ++ r ∧ ends_in value_end c)
  ∧ (∀ x vs r, JSONArray f x = Some (vs, r) → ∃ c, x = c ++ 93 :: r)
  ∧ (∀ x ps r, JSONObject f x = Some (ps, r) → ∃ c, x = c ++ 125 :: r).
Proof.
  induction f as [|f (IHs & IHa & IHo)]; [done|]. split_and!.
  - intros x v r. destruct x as [|a s1]; [done|]. cbn [scan_once].
    destruct (a =? quote).
    { destruct (scanstring (S (length s1)) s1) as [[k r']|] eqn:Hs; [|done].
      cbn. intros [= _ <-]. apply scanstring_split in Hs as (c & ->).
      exists (a :: c ++ [quote]). split; [cbn; by rewrite <- app_assoc|].
      by exists (a :: c), quote. }
    destruct (a =? 123).
    { destruct (skip_ws_split s1) as (ws & Hs1 & _).
      destruct (skip_ws s1) as [|c s2]; [done|].
      destruct (c =? 125) eqn:Hc.
      { apply N.eqb_eq in Hc as ->. intros [= _ <-].
        exists (a :: ws ++ [125]). split; [cbn; by rewrite Hs1 at 1; rewrite <- app_assoc|].
        by exists (a :: ws), 125. }
      destruct (c =? quote); [|done].
      destruct (JSONObject f s2) as [[ps r']|] eqn:Ho; [|done]. cbn.
      intros [= _ <-]. apply IHo in Ho as (c' & ->).
      exists (a :: ws ++ c :: c' ++ [125]). split.
      - cbn. rewrite Hs1 at 1. by rewrite <- !app_assoc, <- app_comm_cons, <- app_assoc.
      - exists (a :: ws ++ c :: c'), 125. split; [|done].
        cbn. by rewrite <- !app_assoc, <- app_comm_cons. }
    destruct (a =? 91).
    { destruct (skip_ws_split s1) as (ws & Hs1 & _).
      destruct (skip_ws s1) as [|c s2]; [done|].
      destruct (c =? 93) eqn:Hc.
      { apply N.eqb_eq in Hc as ->. intros [= _ <-].
        exists (a :: ws ++ [93]). split; [cbn; by rewrite Hs1 at 1; rewrite <- app_assoc|].
        by exists (a :: ws), 93. }
      destruct (JSONArray f (c :: s2)) as [[vs r']|] eqn:Ha; [|done]. cbn.
      intros [= _ <-]. apply IHa in Ha as (c' & Hc').
      exists (a :: ws ++ c' ++ [93]). split.
      - cbn. rewrite Hs1 at 1. rewrite Hc'. by rewrite <- !app_assoc.
      - exists (a :: ws ++ c'), 93. split; [|done]. cbn. by rewrite <- !app_assoc. }
    assert (∀ (lit : str) (v' : value),
              ends_in value_end lit →
              (r' ← literal lit (a :: s1); Some (v', r')) = Some (v, r) →
              ∃ c, a :: s1 = c ++ r ∧ ends_in value_end c) as Hlit.
    { intros lit v' Hend H. destruct (literal lit (a :: s1)) as [r'|] eqn:Hl; [|done].
      cbn in H. injection H as _ <-. apply literal_split in Hl. by exists lit. }
    destruct (a =? 110); [apply Hlit; by exists (pystr "nul"), 108|].
    destruct (a =? 116); [apply Hlit; by exists (pystr "tru"), 101|].
    destruct (a =? 102); [apply Hlit; by exists (pystr "fals"), 101|].
    destruct (match_number (a :: s1)) as [[v' r']|] eqn:Hn.
    { intros [= _ <-]. apply match_number_split in Hn as (c & Hc & (c' & b & -> & Hb)).
      exists (c' ++ [b]). split; [done|]. exists c', b. split; [done|].
      unfold value_end. rewrite Hb. by rewrite !orb_true_r. }
    destruct (a =? 78); [apply Hlit; by exists (pystr "Na"), 78|].
    destruct (a =? 73); [apply Hlit; by exists (pystr "Infinit"), 121|].
    destruct (a =? 45); [apply Hlit; by exists (pystr "-Infinit"), 121|].
    done.
  - intros x vs r. cbn [JSONArray].
    destruct (scan_once f x) as [[v s1]|] eqn:Hs; [|done]. cbn.
    apply IHs in Hs as (c1 & -> & _).
    destruct (skip_ws_split s1) as (ws & Hs1 & _).
    destruct (skip_ws s1) as [|c s2]; [done|].
    destruct (c =? 93) eqn:Hc.
    { apply N.eqb_eq in Hc as ->. intros [= _ <-].
      exists (c1 ++ ws). by rewrite Hs1 at 1; rewrite <- app_assoc. }
    destruct (c =? 44); [|done].
    destruct (JSONArray f (skip_ws s2)) as [[vs' r']|] eqn:Ha; [|done]. cbn.
    intros [= _ <-]. apply IHa in Ha as (c' & Hc').
    destruct (skip_ws_split s2) as (ws2 & Hs2 & _).
    exists (c1 ++ ws ++ c :: ws2 ++ c').
    rewrite Hs1 at 1. rewrite Hs2 at 1. rewrite Hc'.
    by rewrite <- !app_assoc, <- app_comm_cons, <- app_assoc.
  - intros x ps r. cbn [JSONObject].
    destruct (scanstring (S (length x)) x) as [[key s1]|] eqn:Hk; [|done]. cbn.
    apply scanstring_split in Hk as (ck & ->).
    destruct (skip_ws_split s1) as (ws1 & Hs1 & _).
    destruct (skip_ws s1) as [|c s2]; [done|].
    destruct (c =? 58); [|done].
    destruct (scan_once f (skip_ws s2)) as [[v s3]|] eqn:Hv; [|done]. cbn.
    apply IHs in Hv as (cv & Hcv & _).
    destruct (skip_ws_split s2) as (ws2 & Hs2 & _).
    destruct (skip_ws_split s3) as (ws3 & Hs3 & _).
    destruct (skip_ws s3) as [|d s4]; [done|].
    assert (ck ++ quote :: s1
            = (ck ++ quote :: ws1 ++ c :: ws2 ++ cv ++ ws3) ++ d :: s4) as Hx.
    { rewrite Hs1 at 1. rewrite Hs2 at 1. rewrite Hcv. rewrite Hs3 at 1.
      by rewrite <- !app_assoc, <- !app_comm_cons, <- !app_assoc,
                 <- !app_comm_cons, <- !app_assoc. }
    destruct (d =? 125) eqn:Hd.
    { apply N.eqb_eq in Hd as ->. intros [= _ <-]. eexists. exact Hx. }
    destruct (d =? 44); [|done].
    destruct (skip_ws_split s4) as (ws4 & Hs4 & _).
    destruct (skip_ws s4) as [|q s5]; [done|].
    destruct (q =? quote); [|done].
    destruct (JSONObject f s5) as [[ps' r']|] eqn:Ho; [|done]. cbn.
    intros [= _ <-]. apply IHo in Ho as (c' & ->).
    exists ((ck ++ quote :: ws1 ++ c :: ws2 ++ cv ++ ws3) ++ d :: ws4 ++ q :: c').
    rewrite Hx, Hs4.
    by rewrite <- !app_assoc, <- !app_comm_cons, <- !app_assoc,
               <- !app_comm_cons, <- !app_assoc.
Qed.

Lemma scan_once_length (f : nat) (x : str) (v : value) (r : str) :
  scan_once f x = Some (v, r) → (length r < length x)%nat.
Proof.
  intros (c & -> & (c' & b & -> & _))%scan_split.
  rewrite !length_app. cbn. lia.
Qed.

Lemma scanstring_length (f : nat) (x chunks r : str) :
  scanstring f x = Some (chunks, r) → (length r < length x)%nat.
Proof.
  intros (c & ->)%scanstring_split. rewrite length_app. cbn. lia.
Qed.

Lemma skip_ws_cons_length (x : str) (c : N) (y : str) :
  skip_ws x = c :: y → (length y < length x)%nat.
Proof.
  intros H. pose proof (skip_ws_length x) as Hl. rewrite H in Hl. cbn in Hl. lia.
Qed.

(** ** The bound on the recursion does not matter once it is large enough *)

Lemma scan_fuel (f : nat) :
  ∀ f',
    (∀ x, (2 * length x < f)%nat → (2 * length x < f')%nat →
          scan_once f x = scan_once f' x)
    ∧ (∀ x, (2 * length x + 2 ≤ f)%nat → (2 * length x + 2 ≤ f')%nat →
            JSONArray f x = JSONArray f' x)
    ∧ (∀ x, (2 * length x + 2 ≤ f)%nat → (2 * length x + 2 ≤ f')%nat →
            JSONObject f x = JSONObject f' x).
Proof.
  induction f as [|f IH]; intros f'.
  { split_and!; intros; lia. }
  destruct f' as [|f']; [split_and!; intros; lia|].
  destruct (IH f') as (IHs & IHa & IHo). split_and!.
  - intros x Hf Hf'. destruct x as [|a s1]; [done|]. cbn [scan_once].
    cbn [length] in Hf, Hf'.
    destruct (a =? quote); [done|].
    destruct (a =? 123).
    { destruct (skip_ws s1) as [|c s2] eqn:Hs; [done|].
      apply skip_ws_cons_length in Hs.
      destruct (c =? 125); [done|]. destruct (c =? quote); [|done].
      rewrite (IHo s2) by lia. done. }
    destruct (a =? 91); [|done].
    destruct (skip_ws s1) as [|c s2] eqn:Hs; [done|].
    apply skip_ws_cons_length in Hs.
    destruct (c =? 93); [done|].
    rewrite (IHa (c :: s2)) by (cbn [length]; lia). done.
  - intros x Hf Hf'. cbn [JSONArray]. rewrite (IHs x) by lia.
    destruct (scan_once f' x) as [[v s1]|] eqn:Hs; [|done]. cbn.
    apply scan_once_length in Hs.
    destruct (skip_ws s1) as [|c s2] eqn:Hs1; [done|].
    apply skip_ws_cons_length in Hs1.
    destruct (c =? 93); [done|]. destruct (c =? 44); [|done].
    pose proof (skip_ws_length s2).
    rewrite (IHa (skip_ws s2)) by lia. done.
  - intros x Hf Hf'. cbn [JSONObject].
    destruct (scanstring (S (length x)) x) as [[key s1]|] eqn:Hk; [|done]. cbn.
    apply scanstring_length in Hk.
    destruct (skip_ws s1) as [|c s2] eqn:Hs1; [done|].
    apply skip_ws_cons_length in Hs1.
    destruct (c =? 58); [|done].
    pose proof (skip_ws_length s2).
    rewrite (IHs (skip_ws s2)) by lia.
    destruct (scan_once f' (skip_ws s2)) as [[v s3]|] eqn:Hv; [|done]. cbn.
    apply scan_once_length in Hv.
    destruct (skip_ws s3) as [|d s4] eqn:Hs3; [done|].
    apply skip_ws_cons_length in Hs3.
    destruct (d =? 125); [done|]. destruct (d =? 44); [|done].
    destruct (skip_ws s4) as [|q s5] eqn:Hs4; [done|].
    apply skip_ws_cons_length in Hs4.
    destruct (q =? quote); [|done].
    rewrite (IHo s5) by lia. done.
Qed.

Lemma scan_once_fuel (f f' : nat) (x : str) :
  (2 * length x < f)%nat → (2 * length x < f')%nat →
  scan_once f x = scan_once f' x.
Proof. apply scan_fuel. Qed.

Lemma scanstring_own_fuel_snoc (x : str) (w : N) :
  is_ws w = true →
  scanstring (S (length (x ++ [w]))) (x ++ [w])
  = keep w (scanstring (S (length x)) x).
Proof.
  intros Hw. rewrite scanstring_snoc by done.
  rewrite (scanstring_fuel _ (S (length x)) x); [done| |lia].
  rewrite length_app. cbn. lia.
Qed.

Lemma scan_once_nil (f : nat) : scan_once f [] = None.
Proof. by destruct f. Qed.

Lemma JSONArray_nil (f : nat) : JSONArray f [] = None.
Proof. destruct f; [done|]. cbn. by rewrite scan_once_nil. Qed.

Lemma literal_ws_snoc (lit : string) (x : str) (w : N) :
  Forall (λ c, is_ws c = false) (pystr lit) → is_ws w = true →
  literal (pystr lit) (x ++ [w])
  = fmap (M := option) (λ r, r ++ [w]) (literal (pystr lit) x).
Proof.
  intros Hlit Hw. apply literal_snoc.
  eapply Forall_impl; [exact Hlit|]. intros c Hc ->. congruence.
Qed.

(** Appending a whitespace character to the input of a scanner only appends
    it to what remains. *)
Lemma scan_snoc (w : N) (f : nat) :
  is_ws w = true →
  (∀ x, scan_once f (x ++ [w]) = keep w (scan_once f x))
  ∧ (∀ x, JSONArray f (x ++ [w]) = keep w (JSONArray f x))
  ∧ (∀ x, JSONObject f (x ++ [w]) = keep w (JSONObject f x)).
Proof.
  intros Hw. induction f as [|f (IHs & IHa & IHo)]; [done|]. split_and!.
  - intros [|a s1]; [by case_ws Hw|]. cbn [app scan_once].
    destruct (a =? quote).
    { rewrite scanstring_own_fuel_snoc by done.
      by destruct (scanstring (S (length s1)) s1) as [[k r]|]. }
    destruct (a =? 123).
    { rewrite skip_ws_snoc by done. destruct (skip_ws s1) as [|c s2]; [done|].
      cbn [app]. destruct (c =? 125); [done|]. destruct (c =? quote); [|done].
      rewrite IHo. by destruct (JSONObject f s2) as [[ps r]|]. }
    destruct (a =? 91).
    { rewrite skip_ws_snoc by done. destruct (skip_ws s1) as [|c s2]; [done|].
      cbn [app]. destruct (c =? 93); [done|].
      change (c :: s2 ++ [w]) with ((c :: s2) ++ [w]).
      rewrite (IHa (c :: s2)). by destruct (JSONArray f (c :: s2)) as [[vs r]|]. }
    change (a :: s1 ++ [w]) with ((a :: s1) ++ [w]).
    assert (∀ (lit : string) (v : value),
              Forall (λ c, is_ws c = false) (pystr lit) →
              (r ← literal (pystr lit) ((a :: s1) ++ [w]); Some (v, r))
              = keep w (r ← literal (pystr lit) (a :: s1); Some (v, r))) as Hlit.
    { intros lit v Hl. rewrite literal_ws_snoc by done.
      by destruct (literal (pystr lit) (a :: s1)). }
    destruct (a =? 110); [apply Hlit; by repeat constructor|].
    destruct (a =? 116); [apply Hlit; by repeat constructor|].
    destruct (a =? 102); [apply Hlit; by repeat constructor|].
    rewrite match_number_snoc by done.
    destruct (match_number (a :: s1)) as [[v r]|]; [done|]. cbv beta iota.
    destruct (a =? 78); [apply Hlit; by repeat constructor|].
    destruct (a =? 73); [apply Hlit; by repeat constructor|].
    destruct (a =? 45); [apply Hlit; by repeat constructor|].
    done.
  - intros x. cbn [JSONArray]. rewrite IHs.
    destruct (scan_once f x) as [[v s1]|]; [|done]. cbn.
    rewrite skip_ws_snoc by done. destruct (skip_ws s1) as [|c s2]; [done|].
    cbn [app]. destruct (c =? 93); [done|]. destruct (c =? 44); [|done].
    rewrite skip_ws_snoc by done. destruct (skip_ws s2) as [|c' s3].
    { by rewrite JSONArray_nil. }
    rewrite (IHa (c' :: s3)). by destruct (JSONArray f (c' :: s3)) as [[vs r]|].
  - intros x. cbn [JSONObject]. rewrite scanstring_own_fuel_snoc by done.
    destruct (scanstring (S (length x)) x) as [[key s1]|]; [|done]. cbn.
    rewrite skip_ws_snoc by done. destruct (skip_ws s1) as [|c s2]; [done|].
    cbn [app]. destruct (c =? 58); [|done].
    rewrite skip_ws_snoc by done. destruct (skip_ws s2) as [|c' s2'].
    { by rewrite scan_once_nil. }
    rewrite (IHs (c' :: s2')).
    destruct (scan_once f (c' :: s2')) as [[v s3]|]; [|done]. cbn.
    rewrite skip_ws_snoc by done. destruct (skip_ws s3) as [|d s4]; [done|].
    cbn [app]. destruct (d =? 125); [done|]. destruct (d =? 44); [|done].
    rewrite skip_ws_snoc by done. destruct (skip_ws s4) as [|q s5]; [done|].
    cbn [app]. destruct (q =? quote); [|done].
    rewrite IHo. by destruct (JSONObject f s5) as [[ps r]|].
Qed.

(** ** The first character of a value *)

Lemma match_number_start (a : N) (s : str) (m : value * str) :
  match_number (a :: s) = Some m → (a =? 45) || is_digit a = true.
Proof.
  unfold match_number, match_int, match_sign.
  destruct (a =? 45); [done|]. cbn.
  destruct (a =? 48) eqn:H0; [apply N.eqb_eq in H0 as ->; done|].
  by destruct (is_digit a).
Qed.

Lemma scan_once_start (f : nat) (a : N) (s : str) (v : value) (r : str) :
  scan_once f (a :: s) = Some (v, r) → value_start a = true.
Proof.
  destruct f as [|f]; [done|]. cbn [scan_once]. unfold value_start.
  destruct (a =? quote); [done|]. destruct (a =? 123); [done|].
  destruct (a =? 91); [done|]. destruct (a =? 110); [done|].
  destruct (a =? 116); [done|]. destruct (a =? 102); [done|].
  destruct (match_number (a :: s)) as [m|] eqn:Hn.
  { apply match_number_start in Hn. intros _.
    apply orb_true_iff in Hn as [->| ->]; by rewrite ?orb_true_r. }
  destruct (a =? 78); [by rewrite ?orb_true_r|].
  destruct (a =? 73); [by rewrite ?orb_true_r|].
  by destruct (a =? 45).
Qed.

Lemma value_start_not_ws (a : N) : value_start a = true → is_ws a = false.
Proof.
  intros Ha. destruct (is_ws a) eqn:Hw; [|done]. by case_ws Hw.
Qed.

Lemma value_end_not_ws (a : N) : value_end a = true → is_ws a = false.
Proof.
  intros Ha. destruct (is_ws a) eqn:Hw; [|done]. by case_ws Hw.
Qed.

Lemma skip_ws_nil (r : str) :
  skip_ws r = [] → Forall (λ c, is_ws c = true) r.
Proof.
  intros H. destruct (skip_ws_split r) as (ws & Hr & Hws).
  rewrite H, app_nil_r in Hr. by subst.
Qed.

(** ** [json.loads] and surrounding whitespace *)

Lemma loads_cons_ws (w : N) (x : str) :
  is_ws w = true → loads (w :: x) = loads x.
Proof.
  intros Hw. unfold loads.
  assert (startswith (w :: x) [65279] = false) as -> by (by case_ws Hw).
  cbn [skip_ws]. rewrite Hw.
  pose proof (skip_ws_length x) as Hl.
  rewrite (scan_once_fuel _ (S (2 * length x)) (skip_ws x))
    by (cbn [length]; lia).
  destruct (startswith x [65279]) eqn:Hb; [|done].
  destruct x as [|a x']; [done|]. cbn [startswith] in Hb.
  apply andb_true_iff in Hb as [Ha _]. apply N.eqb_eq in Ha as <-.
  change (skip_ws (65279 :: x')) with (65279 :: x').
  destruct (scan_once _ (65279 :: x')) as [[v r]|] eqn:Hscan; [|done].
  by apply scan_once_start in Hscan.
Qed.

Lemma loads_snoc_ws (x : str) (w : N) :
  is_ws w = true → loads (x ++ [w]) = loads x.
Proof.
  intros Hw. unfold loads.
  rewrite startswith_snoc by (repeat constructor; by case_ws Hw).
  destruct (startswith x [65279]); [done|].
  rewrite skip_ws_snoc by done.
  pose proof (skip_ws_length x) as Hl.
  destruct (skip_ws x) as [|a y] eqn:Hy.
  { by rewrite !scan_once_nil. }
  rewrite (proj1 (scan_snoc w _ Hw)).
  rewrite (scan_once_fuel _ (S (2 * length x)) (a :: y))
    by (rewrite ?length_app; cbn [length] in *; lia).
  destruct (scan_once (S (2 * length x)) (a :: y)) as [[v r]|]; [|done]. cbn.
  rewrite skip_ws_snoc by done. by destruct (skip_ws r).
Qed.

Lemma loads_ws (ws1 x ws2 : str) :
  Forall (λ c, is_ws c = true) ws1 → Forall (λ c, is_ws c = true) ws2 →
  loads (ws1 ++ x ++ ws2) = loads x.
Proof.
  intros H1 H2. induction H1 as [|w ws1 Hw _ IH].
  - cbn. induction ws2 as [|w ws2 IH] using rev_ind.
    + by rewrite app_nil_r.
    + apply Forall_app in H2 as [H2 Hw]. inversion_clear Hw.
      rewrite app_assoc, loads_snoc_ws by done. by apply IH.
  - cbn. by rewrite loads_cons_ws.
Qed.

(** A text that decodes is a value between JSON whitespace; the value starts
    and ends with the characters of [value_start] and [value_end]. *)
Lemma loads_split (s : str) (v : value) :
  loads s = Return v →
  ∃ ws1 a c ws2,
    s = ws1 ++ (a :: c) ++ ws2
    ∧ Forall (λ c, is_ws c = true) ws1 ∧ Forall (λ c, is_ws c = true) ws2
    ∧ value_start a = true ∧ ends_in value_end (a :: c).
Proof.
  unfold loads. destruct (startswith s [65279]); [done|].
  destruct (skip_ws_split s) as (ws1 & Hs & Hws1).
  destruct (scan_once _ (skip_ws s)) as [[obj r]|] eqn:Hscan; [|done].
  destruct (skip_ws r) as [|? ?] eqn:Hr; [|done]. intros _.
  apply skip_ws_nil in Hr.
  pose proof Hscan as (c & Hc & Hend)%scan_split.
  destruct c as [|a c]; [by destruct Hend as ([|? ?] & ? & ? & ?)|].
  rewrite Hc in Hscan. apply scan_once_start in Hscan.
  exists ws1, a, c, r. split_and!; try done. by rewrite <- Hc.
Qed.

End json_props.

(** * Properties of the pattern matcher *)

Module re_props.
Import re.

Section matcher.
Context {R : Type}.
Implicit Types (k : str → option str → option R) (g : option str).

Lemma rmatch_lit (l s : str) g k :
  rmatch (lit l) s g k
  = if startswith s l then k (drop (length l) s) g else None.
Proof.
  revert s. induction l as [|c l IH]; intros s; [by destruct s|].
  destruct s as [|a s]; [done|]. cbn.
  rewrite (N.eqb_sym c a). destruct (a =? c); [|done]. apply IH.
Qed.

Lemma rmatch_lit_ignorecase_nil (l : str) g k :
  l ≠ [] → rmatch (lit_ignorecase l) [] g k = None.
Proof. by destruct l. Qed.

Lemma rmatch_lit_ignorecase_head (c : N) (l : str) (a : N) (s : str) g k :
  atom_match (LitI c) a = false →
  rmatch (lit_ignorecase (c :: l)) (a :: s) g k = None.
Proof. intros H. cbn -[atom_match]. by rewrite H. Qed.

(** [\s*] followed by a literal that starts with a character that is not
    whitespace: the whitespace is skipped and the literal must follow. *)
Lemma star_space_lit (c : N) (l s : str) g k :
  isspace c = false →
  star Space (λ s', rmatch (lit (c :: l)) s' g k) s
  = if startswith (lstrip s) (c :: l)
    then k (drop (length (c :: l)) (lstrip s)) g else None.
Proof.
  intros Hc. induction s as [|a s IH].
  - cbn [star lstrip]. by rewrite rmatch_lit.
  - cbn [star lstrip atom_match]. destruct (isspace a) eqn:Ha.
    + rewrite IH. destruct (startswith (lstrip s) (c :: l)).
      * destruct (k _ g); [done|]. rewrite rmatch_lit. cbn [startswith].
        destruct (c =? a) eqn:Hca; [|done]. apply N.eqb_eq in Hca. congruence.
      * rewrite rmatch_lit. cbn [startswith].
        destruct (c =? a) eqn:Hca; [|done]. apply N.eqb_eq in Hca. congruence.
    + by rewrite rmatch_lit.
Qed.

(** A greedy [\s*] hands the text after the whitespace to what follows
    first. *)
Lemma star_space_first (k' : str → option R) (ws s : str) (m : R) :
  Forall (λ c, isspace c = true) ws →
  head s ≫= (λ a, if isspace a then Some a else None) = None →
  k' s = Some m →
  star Space k' (ws ++ s) = Some m.
Proof.
  intros Hws Hs Hk. induction Hws as [|w ws Hw _ IH].
  - cbn [app]. destruct s as [|a s]; [done|]. cbn [star atom_match].
    cbn in Hs. by destruct (isspace a).
  - cbn [app star atom_match]. by rewrite Hw, IH.
Qed.

(** A lazy [.*?] takes the shortest text after which what follows matches. *)
Lemma lazy_star_first (k' : str → option R) (p q : str) (m : R) :
  (∀ p1 p2, p = p1 ++ p2 → p2 ≠ [] → k' (p2 ++ q) = None) →
  k' q = Some m →
  lazy_star Any k' (p ++ q) = Some m.
Proof.
  intros Hp Hq. induction p as [|a p IH].
  - cbn [app]. destruct q; cbn; by rewrite Hq.
  - pose proof (Hp [] (a :: p) eq_refl ltac:(done)) as Hnone.
    cbn [app] in *. cbn [lazy_star atom_match]. rewrite Hnone. apply IH.
    intros p1 p2 -> Hne. by apply (Hp (a :: p1) p2).
Qed.

End matcher.

Lemma search_skip (r : regex) (pre s : str) :
  (∀ p1 p2, pre = p1 ++ p2 → p2 ≠ [] → match_ r (p2 ++ s) = None) →
  search r (pre ++ s) = search r s.
Proof.
  intros Hpre. induction pre as [|a pre IH]; [done|].
  pose proof (Hpre [] (a :: pre) eq_refl ltac:(done)) as Hnone.
  cbn [app] in *. cbn [search]. rewrite Hnone.
  apply IH. intros p1 p2 -> Hne. by apply (Hpre (a :: p1) p2).
Qed.

Lemma search_here (r : regex) (s : str) (m : Match) :
  match_ r s = Some m → search r s = Some m.
Proof. intros H. destruct s; cbn; by rewrite H. Qed.

End re_props.

(** * Properties of the response parser *)

Module utils_props.
Import json utils.

(** ** Whitespace and [strip] *)

Lemma is_ws_isspace (c : N) : is_ws c = true → isspace c = true.
Proof. intros Hc. by json_props.case_ws Hc. Qed.

Lemma lstrip_app_space (ws x : str) :
  Forall (λ c, isspace c = true) ws → lstrip (ws ++ x) = lstrip x.
Proof. induction 1 as [|a ws Ha _ IH]; cbn; [done|]. by rewrite Ha. Qed.

Lemma lstrip_split (x : str) :
  ∃ ws, x = ws ++ lstrip x ∧ Forall (λ c, isspace c = true) ws.
Proof.
  induction x as [|a x (ws & Hx & Hws)]; [by exists []|]. cbn.
  destruct (isspace a) eqn:Ha.
  - exists (a :: ws). split; [by rewrite Hx at 1 | by constructor].
  - by exists [].
Qed.

Lemma lstrip_last (x : str) (b : N) :
  last x = Some b → isspace b = false → last (lstrip x) = Some b.
Proof.
  intros Hl Hb. induction x as [|a x IH]; [done|]. cbn.
  destruct (isspace a) eqn:Ha; [|done].
  destruct x as [|a' x']; [cbn in Hl; congruence|]. by apply IH.
Qed.

Lemma lstrip_app (x y : str) (b : N) :
  last x = Some b → isspace b = false → lstrip (x ++ y) = lstrip x ++ y.
Proof.
  intros Hl Hb. induction x as [|a x IH]; [done|]. cbn.
  destruct (isspace a) eqn:Ha; [|done].
  destruct x as [|a' x']; [cbn in Hl; congruence|]. by apply IH.
Qed.

Lemma strip_core (ws1 : str) (a : N) (c ws2 : str) (b : N) :
  Forall (λ c, isspace c = true) ws1 → Forall (λ c, isspace c = true) ws2 →
  isspace a = false → last (a :: c) = Some b → isspace b = false →
  strip (ws1 ++ (a :: c) ++ ws2) = a :: c.
Proof.
  intros H1 H2 Ha Hl Hb. unfold strip, rstrip.
  rewrite lstrip_app_space by done.
  change (lstrip ((a :: c) ++ ws2)) with (lstrip (a :: (c ++ ws2))).
  cbn [lstrip]. rewrite Ha.
  change (a :: c ++ ws2) with ((a :: c) ++ ws2).
  rewrite reverse_app, lstrip_app_space by (by rewrite Forall_reverse).
  apply last_Some in Hl as (c' & Hc'). rewrite Hc', reverse_snoc.
  cbn [lstrip]. rewrite Hb. by rewrite <- reverse_snoc, reverse_involutive.
Qed.

(** ** Fences *)

Lemma startswith_nil (x : str) : startswith x [] = true.
Proof. by destruct x. Qed.

Lemma startswith_self_app (l s : str) : startswith (l ++ s) l = true.
Proof.
  induction l as [|c l IH]; [apply startswith_nil|].
  cbn. by rewrite N.eqb_refl.
Qed.

Lemma startswith_app (x y l : str) :
  startswith x l = true → startswith (x ++ y) l = true.
Proof.
  revert x. induction l as [|c l IH]; intros x; [intros _; by destruct (x ++ y)|].
  destruct x as [|a x]; [done|]. cbn.
  intros [-> H]%andb_true_iff. by rewrite IH.
Qed.

Lemma has_fence_suffix (p1 p2 : str) :
  has_fence (p1 ++ p2) = false → startswith p2 fence = false.
Proof.
  induction p1 as [|a p1 IH].
  - destruct p2 as [|a p2]; [done|]. cbn [app has_fence].
    by intros [H _]%orb_false_iff.
  - cbn [app has_fence]. intros [_ H]%orb_false_iff. by apply IH.
Qed.

Lemma has_fence_app_r (x y : str) :
  has_fence (x ++ y) = false → has_fence y = false.
Proof.
  induction x as [|a x IH]; [done|]. cbn [app has_fence].
  intros [_ H]%orb_false_iff. by apply IH.
Qed.

Lemma has_fence_app_l (x y : str) :
  has_fence (x ++ y) = false → has_fence x = false.
Proof.
  induction x as [|a x IH]; [done|].
  change ((a :: x) ++ y) with (a :: (x ++ y)).
  cbn [has_fence]. intros [H1 H2]%orb_false_iff.
  rewrite (IH H2), orb_false_r.
  destruct (startswith (a :: x) fence) eqn:Hs; [|done].
  apply (startswith_app _ y) in Hs. cbn [app] in Hs. congruence.
Qed.

(** In a text without fence that does not end in a backtick, no fence starts
    inside the text, whatever follows it. *)
Lemma no_fence_app (x y : str) :
  has_fence x = false → last x ≠ Some backtick →
  ∀ p1 p2, x = p1 ++ p2 → p2 ≠ [] → startswith (p2 ++ y) fence = false.
Proof.
  intros Hx Hl p1 p2 -> Hne.
  rewrite last_app in Hl. apply has_fence_suffix in Hx.
  destruct p2 as [|a [|b [|c p2]]]; [done| | |]; unfold fence in *.
  - cbn [last] in Hl. cbn [app startswith].
    destruct (backtick =? a) eqn:E; [|done]. apply N.eqb_eq in E. congruence.
  - cbn [last] in Hl. cbn [app startswith].
    destruct (backtick =? a); [|done].
    destruct (backtick =? b) eqn:E; [|done]. apply N.eqb_eq in E. congruence.
  - cbn [app startswith] in Hx |- *.
    by rewrite startswith_nil in Hx |- *.
Qed.

(** The end of the pattern, [\s*] and the closing fence, matches a text
    exactly when a fence follows its leading whitespace. *)
Lemma match_closing (s : str) (g : option str) :
  re.rmatch (re.seq [re.Star re.Space; re.lit fence]) s g
    (λ _ g', Some {| re.group1 := g' |})
  = if startswith (lstrip s) fence then Some {| re.group1 := g |} else None.
Proof.
  exact (re_props.star_space_lit backtick [backtick; backtick] s g
           (λ _ g', Some {| re.group1 := g' |}) eq_refl).
Qed.


Lemma rmatch_tag (tag s : str) {R} (g : option str) (k : str → option str → option R) :
  is_tag tag = true → tag ≠ [] →
  re.rmatch (re.lit_ignorecase (pystr "json")) (tag ++ s) g k = k s g.
Proof.
  intros Htag Hne. destruct tag as [|j [|s' [|o [|n [|? ?]]]]]; try done.
  cbn [is_tag] in Htag.
  apply andb_true_iff in Htag as [[[Hj Hs]%andb_true_iff Ho]%andb_true_iff Hn].
  change (pystr "json") with [106; 115; 111; 110].
  cbn [re.lit_ignorecase re.seq fmap list_fmap foldr re.rmatch app].
  by rewrite Hj, Hs, Ho, Hn.
Qed.



Lemma value_start_chars (a : N) :
  value_start a = true →
  isspace a = false ∧ re.atom_match (re.LitI 106) a = false.
Proof.
  intros H. unfold value_start, is_digit, quote in H.
  rewrite !orb_true_iff, !andb_true_iff, !N.eqb_eq, !N.leb_le in H.
  split.
  - destruct (isspace a) eqn:E; [|done]. exfalso. unfold isspace in E.
    rewrite !orb_true_iff, !andb_true_iff, !N.eqb_eq, !N.leb_le in E. lia.
  - destruct (re.atom_match (re.LitI 106) a) eqn:E; [|done]. exfalso.
    cbn in E. rewrite orb_false_r in E. apply N.eqb_eq in E.
    unfold re.lower in E. destruct ((65 <=? a) && (a <=? 90)); lia.
Qed.

Lemma value_end_chars (b : N) :
  value_end b = true → isspace b = false ∧ b ≠ backtick.
Proof.
  intros H. unfold value_end, is_digit, quote in H.
  rewrite !orb_true_iff, !andb_true_iff, !N.eqb_eq, !N.leb_le in H.
  split.
  - destruct (isspace b) eqn:E; [|done]. exfalso. unfold isspace in E.
    rewrite !orb_true_iff, !andb_true_iff, !N.eqb_eq, !N.leb_le in E. lia.
  - unfold backtick. lia.
Qed.

Lemma loads_raise (s : str) (e : exn) : loads s = Raise e → e = JSONDecodeError.
Proof.
  unfold loads. destruct (startswith s [65279]); [congruence|].
  destruct (scan_once _ _) as [[obj r]|]; [|congruence].
  destruct (skip_ws r); congruence.
Qed.





(** C7, as stated, fails: on the array [[1]] after a no-break space the
    direct parse fails and the pattern finds no fence, yet the fallback, which
    strips the text, succeeds. *)
Lemma fallback_recovers :
  loads examples.nbsp_array = Raise JSONDecodeError
  ∧ re.search json_pattern examples.nbsp_array = None
  ∧ parse_llm_response examples.nbsp_array = Return (List [Int 1]).
Proof. by vm_compute. Qed.

(** C7, amended: when the direct parse fails and the pattern finds no
    fence, the parser returns what decoding the stripped text returns; when
    the characters that [strip] removes are JSON whitespace that fails as the
    direct parse did, with a [JSONDecodeError]. *)
Theorem fallback_result (response_text : str) :
  loads response_text = Raise JSONDecodeError →
  re.search json_pattern response_text = None →
  parse_llm_response response_text = loads (strip response_text)
  ∧ (∀ ws1 ws2,
       response_text = ws1 ++ strip response_text ++ ws2 →
       Forall (λ c, is_ws c = true) ws1 → Forall (λ c, is_ws c = true) ws2 →
       parse_llm_response response_text = Raise JSONDecodeError).
Proof.
  intros Hdirect Hsearch.
  assert (parse_llm_response response_text = loads (strip response_text)) as Hp.
  { unfold parse_llm_response, clean_json_response. by rewrite Hdirect, Hsearch. }
  split; [done|]. intros ws1 ws2 Hsplit H1 H2.
  rewrite Hp, <- Hdirect. rewrite Hsplit at 2. symmetry.
  by apply json_props.loads_ws.
Qed.

Lemma fallback_result_witness :
  parse_llm_response examples.truncated = loads (strip examples.truncated)
  ∧ parse_llm_response examples.truncated = Raise JSONDecodeError.
Proof.
  destruct (fallback_result examples.truncated) as [H1 H2];
    [by vm_compute | by vm_compute |].
  split; [exact H1|].
  apply (H2 [32] [32]); [by vm_compute | by repeat constructor | by repeat constructor].
Defined.

End utils_props.

(** * Further properties of the configuration loader *)

Module config_more.
Import config examples.

Lemma has_scheme_http (h : str) : has_scheme (pystr "http://" ++ h) = true.
Proof. unfold has_scheme. by rewrite utils_props.startswith_self_app. Qed.

Lemma get_ollama_host_cases (env : environ) :
  match _get_ollama_host env with
  | Return address => has_scheme address = true
  | Raise e => e = required "OLLAMA_HOST"
  end.
Proof.
  unfold _get_ollama_host.
  destruct (getenv env "OLLAMA_HOST") as [[|c h]|]; [done| |done].
  cbv zeta. destruct (has_scheme _) eqn:Hs; cbn [negb]; [done|].
  apply has_scheme_http.
Qed.

(** X1: whatever the environment, [_get_ollama_host] either raises the error
    that names [OLLAMA_HOST] or returns an address that starts with
    [http://] or [https://]. *)
Theorem host_has_scheme (env : environ) :
  match _get_ollama_host env with
  | Return address => has_scheme address = true
  | Raise e => e = required "OLLAMA_HOST"
  end.
Proof. apply get_ollama_host_cases. Qed.

(** X2: the normalisation of the host is idempotent: an address returned by
    [_get_ollama_host], configured as [OLLAMA_HOST], is returned unchanged. *)
Theorem host_normalisation_idempotent (env env' : environ) (address : str) :
  _get_ollama_host env = Return address →
  _get_ollama_host (<["OLLAMA_HOST"%string := address]> env') = Return address.
Proof.
  intros Hget. pose proof (get_ollama_host_cases env) as Hs. rewrite Hget in Hs.
  assert (address ≠ []) as Hne by (by intros ->).
  rewrite (config_props.get_ollama_host_eq _ address); [|apply lookup_insert_eq|done].
  cbv zeta. case_bool_decide as Hd; [by subst|]. by rewrite Hs.
Qed.

Lemma host_normalisation_idempotent_witness :
  _get_ollama_host
    (<["OLLAMA_HOST"%string := pystr "http://localhost:11434"]> env_8080)
  = Return (pystr "http://localhost:11434").
Proof.
  apply (host_normalisation_idempotent env_default env_8080).
  reflexivity.
Defined.



(** X4: an optional variable has no part in the outcome of [Config()] but
    its own field: setting it changes neither the success, nor the error, nor
    the required fields. *)
Theorem optional_value_irrelevant (env : environ) (var : string) (v : str) :
  var ∈ ["TOP_P"; "TEMPERATURE"; "PENALTY"; "MAX_NEW_TOKENS"]%string →
  match Config__init__ env, Config__init__ (<[var := v]> env) with
  | Return cfg, Return cfg' =>
      ollama_host cfg' = ollama_host cfg ∧ ollama_model cfg' = ollama_model cfg
      ∧ folder_path cfg' = folder_path cfg ∧ file_path cfg' = file_path cfg
  | Raise e, Raise e' => e' = e
  | _, _ => False
  end.
Proof.
  intros Hvar.
  assert (∀ k, k ∈ required_vars → getenv (<[var := v]> env) k = getenv env k) as Hreq.
  { intros k Hk. unfold getenv. apply lookup_insert_ne. intros ->.
    repeat (apply elem_of_cons in Hvar as [->|Hvar];
            [repeat (apply elem_of_cons in Hk as [Hk|Hk]; [done|]);
             by apply not_elem_of_nil in Hk|]).
    by apply not_elem_of_nil in Hvar. }
  unfold Config__init__, _get_ollama_host.
  rewrite !Hreq by (unfold required_vars; set_solver).
  destruct (getenv env "OLLAMA_HOST") as [[|c h]|]; try done. cbv zeta.
  destruct (getenv env "OLLAMA_MODEL") as [[|m ms]|];
    try (by destruct (negb (has_scheme _))).
  destruct (getenv env "FOLDER_PATH") as [[|f fs]|];
    try (by destruct (negb (has_scheme _))).
  destruct (getenv env "FILE_PATH") as [[|g gs]|];
    by destruct (negb (has_scheme _)).
Qed.

Lemma optional_value_irrelevant_witness :
  match Config__init__ env_complete,
        Config__init__ (<["TEMPERATURE"%string := pystr "0.7"]> env_complete) with
  | Return cfg, Return cfg' =>
      ollama_host cfg' = ollama_host cfg ∧ ollama_model cfg' = ollama_model cfg
      ∧ folder_path cfg' = folder_path cfg ∧ file_path cfg' = file_path cfg
  | Raise e, Raise e' => e' = e
  | _, _ => False
  end.
Proof.
  apply (optional_value_irrelevant env_complete "TEMPERATURE" (pystr "0.7")).
  right. left.
Defined.

End config_more.

(** * Further properties of the document processor and of the batch driver *)

Module processor_more.
Import processor.

Section Processor.

#[local] Opaque qa_dataset.

Variable converter_convert : path → option str.
Variable client_chat : list event → ChatRequest → option str.
Variable exists_ : path → bool.
Variable scandir : path → list str.
Variable SYS_PROMPT : str.
Variable TODAY : str.
Variable config : config.Config.

Local Abbreviation process_document :=
  (process_document converter_convert client_chat SYS_PROMPT config).
Local Abbreviation outcomes :=
  (outcomes converter_convert client_chat SYS_PROMPT config).
Local Abbreviation process_multiple_documents :=
  (process_multiple_documents converter_convert client_chat exists_ scandir
     SYS_PROMPT TODAY config).
Local Abbreviation doc_files := (doc_files scandir).
Local Abbreviation chat_request := (chat_request SYS_PROMPT config).

Lemma process_document_raise doc output_dir shuffle_qa w e w' :
  process_document doc output_dir shuffle_qa w = (Raise e, w') →
  files w' = files w
  ∧ (converter_convert doc = None →
     e = ConversionError ∧ w' = log (EvConvert doc) w)
  ∧ (∀ md, converter_convert doc = Some md →
       client_chat (trace w ++ [EvConvert doc]) (chat_request md) = None →
       e = GenerationError ∧ w' = log (EvChat md) (log (EvConvert doc) w))
  ∧ (∀ md response,
       converter_convert doc = Some md →
       client_chat (trace w ++ [EvConvert doc]) (chat_request md) = Some response →
       ∀ e', utils.parse_llm_response response = Raise e' →
       e = e' ∧ w' = log (EvChat md) (log (EvConvert doc) w)).
Proof.
  unfold processor.process_document, mbind, M_bind, mret, M_ret, bind, ret,
    md_converter, llm_qa_generator, lift, shuffle, mkdir_exist_ok, dump, log,
    processor.chat_request.
  intros H.
  repeat (case_match; simplify_eq); cbn [trace dirs files] in *;
    (split_and!; [done|..]); intros; simplify_eq; try done; try congruence.
  split; [congruence|done].
Qed.

Lemma process_document_return doc output_dir shuffle_qa w v w' :
  process_document doc output_dir shuffle_qa w = (Return v, w') →
  ∃ md response v0,
    converter_convert doc = Some md
    ∧ client_chat (trace w ++ [EvConvert doc]) (chat_request md) = Some response
    ∧ utils.parse_llm_response response = Return v0
    ∧ (∀ l, v0 = json.List l →
         ∃ l', v = json.List l' ∧ l' ≡ₚ l ∧ (shuffle_qa = false → l' = l))
    ∧ (is_list v0 = false → v = v0)
    ∧ (is_list v0 = false ∨ shuffle_qa = false → rng w' = rng w)
    ∧ trace w'
      = trace w ++ [EvConvert doc; EvChat md; EvWrite (output_file doc output_dir) v]
    ∧ files w' = <[output_file doc output_dir := v]> (files w)
    ∧ (∀ d, output_dir = Some d → is_dir w' d = true).
Proof.
  unfold processor.process_document, mbind, M_bind, mret, M_ret, bind, ret,
    md_converter, llm_qa_generator, lift, shuffle, mkdir_exist_ok, dump, log,
    processor.chat_request, output_file.
  intros H.
  repeat (case_match; simplify_eq); cbn [trace dirs files rng] in *;
    do 3 eexists; (split_and!; [done|done|done|..]);
    rewrite <- ?app_assoc; cbn [app];
    try done;
    try (intros; simplify_eq; fail);
    try (intros [?|?]; done);
    try (intros ? [= <-]; rewrite ?processor_props.parent_joinpath in *;
         unfold is_dir in *; cbn [dirs] in *; done).
  all: intros ? [= <-]; eexists; (split_and!; [done| |done]); try done.
  all: match goal with
       | Hs : random.shuffle ?l ?g = (?x, _) |- ?x ≡ₚ ?l =>
           pose proof (shuffle_props.shuffle_Permutation l g) as Hp;
           by rewrite Hs in Hp
       end.
Qed.

Lemma outcomes_files docs output_dir shuffle_qa w :
  files (outcomes docs output_dir shuffle_qa w).2
  = outputs output_dir (outcomes docs output_dir shuffle_qa w).1 (files w).
Proof.
  revert w. induction docs as [|doc docs IH]; intros w; [done|].
  cbn [processor.outcomes].
  destruct (process_document doc output_dir shuffle_qa w) as [[v|e] w1] eqn:Hpd.
  - apply process_document_return in Hpd
      as (md & response & v0 & _ & _ & _ & _ & _ & _ & _ & Hfiles & _).
    specialize (IH w1). destruct (outcomes docs output_dir shuffle_qa w1) as [rs w2].
    cbn in *. by rewrite IH, Hfiles.
  - apply process_document_raise in Hpd as (Hfiles & _).
    specialize (IH w1). destruct (outcomes docs output_dir shuffle_qa w1) as [rs w2].
    cbn in *. by rewrite IH, Hfiles.
Qed.


Lemma outputs_lookup_other d os fs (p : path) :
  (∀ nm, p ≠ joinpath d nm) →
  outputs (Some d) os fs !! p = fs !! p.
Proof.
  intros Hp. revert fs. induction os as [|[doc [v|e]] os IH]; intros fs; [done| |].
  - change (outputs (Some d) ((doc, Return v) :: os) fs)
      with (outputs (Some d) os (<[output_file doc (Some d) := v]> fs)).
    rewrite IH. apply lookup_insert_ne. intros Heq. by apply (Hp _ (eq_sym Heq)).
  - apply IH.
Qed.

Lemma process_document_with_rng doc output_dir g w :
  process_document doc output_dir false (with_rng g w)
  = ((process_document doc output_dir false w).1,
     with_rng g (process_document doc output_dir false w).2).
Proof.
  unfold processor.process_document, mbind, M_bind, mret, M_ret, bind, ret,
    md_converter, llm_qa_generator, lift, mkdir_exist_ok, dump, log, with_rng,
    is_dir.
  cbn [trace dirs files rng].
  repeat (case_match; simplify_eq; cbn [trace dirs files rng fst snd] in *);
    try done; congruence.
Qed.

Lemma outcomes_with_rng docs output_dir g w :
  outcomes docs output_dir false (with_rng g w)
  = ((outcomes docs output_dir false w).1,
     with_rng g (outcomes docs output_dir false w).2).
Proof.
  revert w. induction docs as [|doc docs IH]; intros w; [done|].
  cbn [processor.outcomes]. rewrite process_document_with_rng.
  destruct (process_document doc output_dir false w) as [r w1]. cbn [fst snd].
  rewrite IH. by destruct (outcomes docs output_dir false w1).
Qed.

(** The world a batch over an existing folder leaves. *)
Lemma process_multiple_documents_world folder output_dir shuffle_qa
    (shuffle_combined : bool) w :
  exists_ folder = true →
  let run := outcomes (doc_files folder) output_dir shuffle_qa w in
  let rs := successes run.1 in
  let combined_qa := concat (items <$> rs) in
  let content := if shuffle_combined
                 then (random.shuffle combined_qa (rng run.2)).1
                 else combined_qa in
  ∃ w', process_multiple_documents folder output_dir shuffle_qa shuffle_combined w
        = (Return rs, w')
    ∧ dirs w' = dirs run.2
    ∧ files w'
      = match output_dir, rs with
        | Some d, _ :: _ =>
            <[joinpath d (combined_name TODAY) := json.List content]> (files run.2)
        | _, _ => files run.2
        end
    ∧ (shuffle_combined = false → rng w' = rng run.2).
Proof.
  intros Hex run rs combined_qa content.
  unfold processor.process_multiple_documents. rewrite Hex. cbn [negb].
  pose proof (processor_props.outcomes_inv converter_convert client_chat exists_
                scandir SYS_PROMPT config (doc_files folder) output_dir shuffle_qa w)
    as (_ & _ & _ & Hdir).
  fold run in Hdir. fold rs in Hdir.
  destruct (doc_files folder) as [|doc docs] eqn:Hdocs.
  { exists w. subst rs run. cbn. by destruct output_dir. }
  unfold mbind, M_bind, bind. rewrite processor_props.process_each_outcomes.
  cbn [app]. fold run. fold rs.
  destruct output_dir as [d|].
  2:{ exists run.2. by destruct rs. }
  destruct rs as [|r rs'] eqn:Hrs.
  { by exists run.2. }
  specialize (Hdir ltac:(done) d eq_refl).
  rewrite processor_props.flatten_concat. fold combined_qa.
  assert (∃ w1, (match combined_qa with
                 | [] => mret combined_qa
                 | _ :: _ => if shuffle_combined then shuffle combined_qa
                             else mret combined_qa
                 end) run.2
                = (Return content, w1)
                ∧ dirs w1 = dirs run.2 ∧ files w1 = files run.2
                ∧ (shuffle_combined = false → rng w1 = rng run.2))
    as (w1 & -> & Hd1 & Hf1 & Hr1).
  { subst content. unfold shuffle, mret, M_ret, ret.
    destruct combined_qa as [|q qs] eqn:Hq.
    - exists run.2. by destruct shuffle_combined.
    - destruct shuffle_combined; [|by eexists].
      destruct (random.shuffle (q :: qs) (rng run.2)) as [x' g']. by eexists. }
  unfold dump. rewrite processor_props.parent_joinpath.
  assert (is_dir w1 d = true) as ->.
  { revert Hdir. unfold is_dir. by rewrite Hd1. }
  eexists. split; [reflexivity|]. cbn [dirs files rng log].
  by rewrite Hf1.
Qed.

Lemma process_document_dirs doc output_dir shuffle_qa w r w' :
  process_document doc output_dir shuffle_qa w = (r, w') →
  ∀ p, p ∈ dirs w' → p ∈ dirs w ∨ output_dir = Some p.
Proof.
  unfold processor.process_document, mbind, M_bind, mret, M_ret, bind, ret,
    md_converter, llm_qa_generator, lift, shuffle, mkdir_exist_ok, dump, log.
  intros H.
  repeat (case_match; simplify_eq); cbn [dirs]; set_solver.
Qed.

Lemma outcomes_dirs docs output_dir shuffle_qa w :
  ∀ p, p ∈ dirs (outcomes docs output_dir shuffle_qa w).2 →
       p ∈ dirs w ∨ output_dir = Some p.
Proof.
  revert w. induction docs as [|doc docs IH]; intros w p; [by left|].
  cbn [processor.outcomes].
  destruct (process_document doc output_dir shuffle_qa w) as [r w1] eqn:Hpd.
  specialize (IH w1 p). destruct (outcomes docs output_dir shuffle_qa w1) as [rs w2].
  cbn in *. intros [Hp|Hp]%IH; [|by right].
  by eapply process_document_dirs.
Qed.


(** X6: a document that succeeds was converted, answered and parsed; the
    value returned is the parsed value, or, for a list, a permutation of it
    (the list itself when the shuffle is off): nothing is added, dropped or
    changed.  That value is written to the one file of the document, and
    nothing else is written; the random generator moves only for a shuffled
    list. *)
Theorem successful_document doc output_dir shuffle_qa w v w' :
  process_document doc output_dir shuffle_qa w = (Return v, w') →
  ∃ md response v0,
    converter_convert doc = Some md
    ∧ client_chat (trace w ++ [EvConvert doc]) (chat_request md) = Some response
    ∧ utils.parse_llm_response response = Return v0
    ∧ (∀ l, v0 = json.List l →
         ∃ l', v = json.List l' ∧ l' ≡ₚ l ∧ (shuffle_qa = false → l' = l))
    ∧ (is_list v0 = false → v = v0)
    ∧ (is_list v0 = false ∨ shuffle_qa = false → rng w' = rng w)
    ∧ trace w'
      = trace w ++ [EvConvert doc; EvChat md; EvWrite (output_file doc output_dir) v]
    ∧ files w' = <[output_file doc output_dir := v]> (files w)
    ∧ (∀ d, output_dir = Some d → is_dir w' d = true).
Proof. apply process_document_return. Qed.



(** X9: a batch with an output directory changes no file but those directly
    inside that directory, and creates no directory but that one. *)
Theorem writes_confined folder d shuffle_qa (shuffle_combined : bool) w (p : path) :
  (∀ nm, p ≠ joinpath d nm) →
  let w' := (process_multiple_documents folder (Some d) shuffle_qa
               shuffle_combined w).2 in
  files w' !! p = files w !! p
  ∧ ∀ q, q ∈ dirs w' → q ∈ dirs w ∨ q = d.
Proof.
  intros Hp. destruct (exists_ folder) eqn:Hex.
  2:{ unfold processor.process_multiple_documents. rewrite Hex. cbn. auto. }
  destruct (process_multiple_documents_world folder (Some d) shuffle_qa
              shuffle_combined w Hex) as (w' & Hrun & Hdirs & Hfiles & _).
  rewrite Hrun. cbn [snd]. split.
  - rewrite Hfiles, outcomes_files.
    destruct (successes _); [by apply outputs_lookup_other|].
    rewrite lookup_insert_ne; [by apply outputs_lookup_other|].
    intros Heq. by apply (Hp _ (eq_sym Heq)).
  - intros q Hq. rewrite Hdirs in Hq.
    apply outcomes_dirs in Hq as [?|[= ->]]; auto.
Qed.

(** X10: with both shuffles off the batch does not use the random
    generator: started with another generator state it returns the same
    result and leaves the same world, but for that state. *)
Theorem batch_reproducible folder output_dir (g : random.Random) w :
  process_multiple_documents folder output_dir false false (with_rng g w)
  = ((process_multiple_documents folder output_dir false false w).1,
     with_rng g (process_multiple_documents folder output_dir false false w).2).
Proof.
  unfold processor.process_multiple_documents.
  destruct (exists_ folder); [|done]. cbn [negb].
  destruct (doc_files folder) as [|doc docs]; [done|].
  unfold mbind, M_bind, bind. rewrite !processor_props.process_each_outcomes.
  rewrite outcomes_with_rng. cbn [app fst snd].
  destruct (outcomes (doc :: docs) output_dir false w) as [os w1]. cbn [fst snd].
  destruct output_dir as [d|]; [|done].
  destruct (successes os) as [|r rs]; [done|].
  unfold mret, M_ret, ret, dump. rewrite !processor_props.parent_joinpath.
  assert (is_dir (with_rng g w1) d = is_dir w1 d) as Hdir by reflexivity.
  destruct (flatten (r :: rs)); cbv beta iota; rewrite Hdir;
    by destruct (is_dir w1 d).
Qed.

(** X11: two documents with the same stem share their output file: when
    both succeed, one after the other, the files hold the result of the
    second under that name and the result of the first is not kept. *)
Theorem same_stem_overwrites d1 d2 output_dir shuffle_qa w v1 w1 v2 w2 :
  stem d1 = stem d2 →
  process_document d1 output_dir shuffle_qa w = (Return v1, w1) →
  process_document d2 output_dir shuffle_qa w1 = (Return v2, w2) →
  output_file d1 output_dir = output_file d2 output_dir
  ∧ files w2 = <[output_file d1 output_dir := v2]> (files w).
Proof.
  intros Hstem H1 H2.
  apply process_document_return in H1
    as (? & ? & ? & _ & _ & _ & _ & _ & _ & _ & Hf1 & _).
  apply process_document_return in H2
    as (? & ? & ? & _ & _ & _ & _ & _ & _ & _ & Hf2 & _).
  assert (output_file d1 output_dir = output_file d2 output_dir) as Hout
    by (unfold output_file; by rewrite Hstem).
  split; [done|]. by rewrite Hf2, Hf1, <- Hout, insert_insert_eq.
Qed.

(** X12: the documents of a batch are the entries of the folder whose name
    ends in one of the five extensions, each once, in ascending order of
    their paths. *)
Theorem documents_enumerated folder :
  Sorted path_order (doc_files folder)
  ∧ NoDup (doc_files folder)
  ∧ ∀ p, p ∈ doc_files folder ↔
         ∃ nm ext, nm ∈ scandir folder ∧ ext ∈ supported_extensions
                   ∧ endswith nm ext = true ∧ p = joinpath folder nm.
Proof. apply processor_props.doc_files_spec. Qed.

End Processor.

Import examples.


Lemma successful_document_witness :
  ∃ w', process_document convert chat [] cfg (joinpath docs_folder (pystr "c.md"))
          (Some output) true world0 = (Return (json.Dict []), w')
        ∧ files w' = <[joinpath output (pystr "c_qa_dataset.json") := json.Dict []]> ∅.
Proof.
  assert (process_document convert chat [] cfg (joinpath docs_folder (pystr "c.md"))
            (Some output) true world0
          = (Return (json.Dict []),
             (process_document convert chat [] cfg
                (joinpath docs_folder (pystr "c.md")) (Some output) true world0).2))
    as Hrun by (by vm_compute).
  eexists. split; [exact Hrun|].
  destruct (successful_document convert chat [] cfg
              (joinpath docs_folder (pystr "c.md")) (Some output) true world0
              (json.Dict []) _ Hrun)
    as (md & response & v0 & _ & _ & _ & _ & _ & _ & _ & Hfiles & _).
  exact Hfiles.
Defined.



Lemma writes_confined_witness :
  let w' := (process_multiple_documents convert chat folder_exists entries [] today cfg
               docs_folder (Some output) true true world0).2 in
  files w' !! joinpath docs_folder (pystr "a.txt") = None
  ∧ ∀ q, q ∈ dirs w' → q ∈ dirs world0 ∨ q = output.
Proof.
  apply (writes_confined convert chat folder_exists entries [] today cfg
           docs_folder output true true world0 (joinpath docs_folder (pystr "a.txt"))).
  intros nm. discriminate.
Defined.

Lemma same_stem_overwrites_witness :
  let d1 := joinpath docs_folder (pystr "a.md") in
  let d2 := joinpath docs_folder (pystr "a.txt") in
  let v := json.List [json.Int 1; json.Int 2] in
  output_file d1 (Some output) = output_file d2 (Some output)
  ∧ files (process_document convert chat_fixed [] cfg d2 (Some output) false
             (process_document convert chat_fixed [] cfg d1 (Some output) false
                world0).2).2
    = <[output_file d1 (Some output) := v]> (files world0).
Proof.
  apply (same_stem_overwrites convert chat_fixed [] cfg
           (joinpath docs_folder (pystr "a.md")) (joinpath docs_folder (pystr "a.txt"))
           (Some output) false world0
           (json.List [json.Int 1; json.Int 2])
           (process_document convert chat_fixed [] cfg
              (joinpath docs_folder (pystr "a.md")) (Some output) false world0).2
           (json.List [json.Int 1; json.Int 2])
           (process_document convert chat_fixed [] cfg
              (joinpath docs_folder (pystr "a.txt")) (Some output) false
              (process_document convert chat_fixed [] cfg
                 (joinpath docs_folder (pystr "a.md")) (Some output) false world0).2).2);
    [reflexivity | by vm_compute | by vm_compute].
Defined.

End processor_more.

(** * Properties of the entry point *)

Module main_more.
Import processor.

Section Main.

Variable converter_convert : path → option str.
Variable client_chat : list event → ChatRequest → option str.
Variable exists_ : path → bool.
Variable scandir : path → list str.
Variable SYS_PROMPT : str.
Variable TODAY : str.

Local Abbreviation main :=
  (main.main converter_convert client_chat exists_ scandir SYS_PROMPT TODAY).

Local Abbreviation output_dir := main.output_dir.





End Main.

Import examples.



End main_more.

(** * Properties of the pattern matcher and of the response cleaner *)

Module re_more.
Import re.

Section matcher.
Context {R : Type}.
Implicit Types (k : str → option R).

Lemma star_ext a k k' (s : str) :
  (∀ x, k x = k' x) → star a k s = star a k' s.
Proof.
  intros H. induction s as [|c s IH]; cbn; [apply H|]. by rewrite IH, H.
Qed.

Lemma lazy_star_ext a k k' (s : str) :
  (∀ x, k x = k' x) → lazy_star a k s = lazy_star a k' s.
Proof.
  intros H. induction s as [|c s IH]; cbn; rewrite H; [done|]. by rewrite IH.
Qed.

(** A greedy star succeeds when what follows succeeds after a run of [a]. *)
Lemma star_is_Some a k (p1 p2 : str) :
  Forall (λ c, atom_match a c = true) p1 → is_Some (k p2) →
  is_Some (star a k (p1 ++ p2)).
Proof.
  intros Hp1 Hk. induction Hp1 as [|c p1 Hc _ IH].
  - cbn [app]. destruct p2 as [|c p2]; [done|]. cbn [star].
    destruct (atom_match a c); [|done]. by destruct (star a k p2).
  - cbn [app star]. rewrite Hc. by destruct IH as [m ->].
Qed.

(** A greedy star that succeeds took a run of [a] after which what follows
    succeeds, and no longer run would have done. *)
Lemma star_inv a k (s : str) (m : R) :
  star a k s = Some m →
  ∃ p1 p2, s = p1 ++ p2 ∧ Forall (λ c, atom_match a c = true) p1
           ∧ k p2 = Some m
           ∧ ∀ c p2', p2 = c :: p2' → atom_match a c = true →
                      star a k p2' = None.
Proof.
  induction s as [|c s IH]; cbn [star].
  - intros Hk. exists [], []. by split_and!.
  - destruct (atom_match a c) eqn:Hc.
    + destruct (star a k s) as [m'|] eqn:Hs.
      * intros [= ->]. destruct (IH eq_refl) as (p1 & p2 & -> & Hp1 & Hk & Hmax).
        exists (c :: p1), p2. split_and!; [done|by constructor|done|done].
      * intros Hk. exists [], (c :: s). split_and!; [done|done|done|].
        by intros ? ? [= <- <-] _.
    + intros Hk. exists [], (c :: s). split_and!; [done|done|done|].
      intros ? ? [= <- <-]. congruence.
Qed.

Lemma lazy_star_is_Some a k (p1 p2 : str) :
  Forall (λ c, atom_match a c = true) p1 → is_Some (k p2) →
  is_Some (lazy_star a k (p1 ++ p2)).
Proof.
  intros Hp1 [m Hk]. induction Hp1 as [|c p1 Hc _ IH].
  - cbn [app]. destruct p2; cbn [lazy_star]; by rewrite Hk.
  - cbn [app lazy_star]. destruct (k (c :: p1 ++ p2)); [done|]. by rewrite Hc.
Qed.

(** A lazy star that succeeds took the shortest run of [a] after which what
    follows succeeds. *)
Lemma lazy_star_inv a k (s : str) (m : R) :
  lazy_star a k s = Some m →
  ∃ p1 p2, s = p1 ++ p2 ∧ Forall (λ c, atom_match a c = true) p1
           ∧ k p2 = Some m
           ∧ ∀ q1 q2, p1 = q1 ++ q2 → q2 ≠ [] → k (q2 ++ p2) = None.
Proof.
  induction s as [|c s IH]; cbn [lazy_star].
  - destruct (k []) as [m'|] eqn:Hk; [|done]. intros [= ->].
    exists [], []. split_and!; [done|done|done|].
    by intros [|? ?] [|? ?].
  - destruct (k (c :: s)) as [m'|] eqn:Hk.
    + intros [= ->]. exists [], (c :: s). split_and!; [done|done|done|].
      by intros [|? ?] [|? ?].
    + destruct (atom_match a c) eqn:Hc; [|done]. intros Hs.
      destruct (IH Hs) as (p1 & p2 & -> & Hp1 & Hk2 & Hmin).
      exists (c :: p1), p2. split_and!; [done|by constructor|done|].
      intros [|c' q1] q2 Hq Hne.
      * cbn [app] in Hq. by subst q2.
      * cbn [app] in Hq. injection Hq as <- ->. by apply (Hmin q1 q2).
Qed.

Lemma rmatch_ext (r : regex) :
  ∀ (s : str) (g : option str) (k k' : str → option str → option R),
    (∀ x y, k x y = k' x y) → rmatch r s g k = rmatch r s g k'.
Proof.
  induction r as [|a|r1 IH1 r2 IH2|r IH|a|a|r IH]; intros s g k k' H;
    cbn [rmatch].
  - apply H.
  - destruct s as [|c s]; [done|]. by rewrite H.
  - apply IH1. intros x y. by apply IH2.
  - rewrite (IH s g k k' H). by rewrite H.
  - apply star_ext. intros x. apply H.
  - apply lazy_star_ext. intros x. apply H.
  - apply IH. intros x y. apply H.
Qed.

End matcher.

Lemma search_is_Some (r : regex) (p1 p2 : str) :
  is_Some (match_ r p2) → is_Some (search r (p1 ++ p2)).
Proof.
  intros [m Hm]. induction p1 as [|c p1 IH].
  - cbn [app]. destruct p2; cbn [search]; by rewrite Hm.
  - cbn [app search]. by destruct (match_ r (c :: p1 ++ p2)).
Qed.

(** [re.search] returns the match at the first position that has one. *)
Lemma search_inv (r : regex) (s : str) (m : Match) :
  search r s = Some m →
  ∃ p1 p2, s = p1 ++ p2 ∧ match_ r p2 = Some m
           ∧ ∀ q1 q2, p1 = q1 ++ q2 → q2 ≠ [] → match_ r (q2 ++ p2) = None.
Proof.
  induction s as [|c s IH]; cbn [search].
  - destruct (match_ r []) as [m'|] eqn:Hm; [|done]. intros [= ->].
    exists [], []. split_and!; [done|done|]. by intros [|? ?] [|? ?].
  - destruct (match_ r (c :: s)) as [m'|] eqn:Hm.
    + intros [= ->]. exists [], (c :: s). split_and!; [done|done|].
      by intros [|? ?] [|? ?].
    + intros Hs. destruct (IH Hs) as (p1 & p2 & -> & Hm2 & Hmin).
      exists (c :: p1), p2. split_and!; [done|done|].
      intros [|c' q1] q2 Hq Hne.
      * cbn [app] in Hq. by subst q2.
      * cbn [app] in Hq. injection Hq as <- ->. by apply (Hmin q1 q2).
Qed.

End re_more.

Module utils_more.
Import json utils.

(** ** Whitespace and [strip] *)

Lemma rstrip_split (x : str) :
  ∃ ws, x = rstrip x ++ ws ∧ Forall (λ c, isspace c = true) ws.
Proof.
  destruct (utils_props.lstrip_split (reverse x)) as (ws & Hx & Hws).
  exists (reverse ws). split; [|by rewrite Forall_reverse].
  unfold rstrip. by rewrite <- reverse_app, <- Hx, reverse_involutive.
Qed.

Lemma strip_split (x : str) :
  ∃ ws1 ws2, x = ws1 ++ strip x ++ ws2
             ∧ Forall (λ c, isspace c = true) ws1
             ∧ Forall (λ c, isspace c = true) ws2.
Proof.
  destruct (utils_props.lstrip_split x) as (ws1 & Hx & Hws1).
  destruct (rstrip_split (lstrip x)) as (ws2 & Hl & Hws2).
  exists ws1, ws2. split; [|done]. unfold strip. by rewrite <- Hl.
Qed.

Lemma lstrip_head (x : str) (a : N) :
  head (lstrip x) = Some a → isspace a = false.
Proof.
  induction x as [|c x IH]; [done|]. cbn [lstrip].
  destruct (isspace c) eqn:Hc; [done|]. cbn. congruence.
Qed.

Lemma lstrip_id (x : str) (a : N) :
  head x = Some a → isspace a = false → lstrip x = x.
Proof. destruct x as [|c x]; [done|]. cbn. intros [= ->] ->. done. Qed.

(** The stripped text is empty or has a character that is not whitespace
    at each end. *)
Lemma strip_ends (x : str) :
  strip x = []
  ∨ ∃ a c b, strip x = a :: c ∧ isspace a = false
             ∧ last (a :: c) = Some b ∧ isspace b = false.
Proof.
  destruct (strip x) as [|a c] eqn:Hs; [by left|]. right.
  assert (∃ b, last (a :: c) = Some b) as [b Hb].
  { destruct (last (a :: c)) eqn:E; [by eexists|]. by apply last_None in E. }
  exists a, c, b. split_and!; [done| |done|].
  - unfold strip in Hs. destruct (rstrip_split (lstrip x)) as (ws & Hl & _).
    rewrite Hs in Hl. apply (lstrip_head x). by rewrite Hl.
  - unfold strip, rstrip in Hs.
    apply (lstrip_head (reverse (lstrip x))).
    rewrite <- (reverse_involutive (lstrip (reverse (lstrip x)))), Hs.
    rewrite head_reverse. done.
Qed.

Lemma strip_fixed (a : N) (c : str) (b : N) :
  isspace a = false → last (a :: c) = Some b → isspace b = false →
  strip (a :: c) = a :: c.
Proof.
  intros Ha Hl Hb. pose proof (utils_props.strip_core [] a c [] b) as Hs.
  rewrite app_nil_r in Hs. by apply Hs.
Qed.

Lemma strip_idemp (x : str) : strip (strip x) = strip x.
Proof.
  destruct (strip_ends x) as [->|(a & c & b & -> & Ha & Hl & Hb)]; [done|].
  by apply (strip_fixed a c b).
Qed.

(** ** Fences *)

Lemma startswith_inv (s l : str) :
  startswith s l = true → s = l ++ drop (length l) s.
Proof.
  revert s. induction l as [|c l IH]; intros s; [done|].
  destruct s as [|a s]; [done|]. cbn.
  intros [->%N.eqb_eq H]%andb_true_iff. f_equal. by apply IH.
Qed.

Lemma has_fence_intro (x y : str) : has_fence (x ++ fence ++ y) = true.
Proof.
  induction x as [|a x IH].
  - change (startswith (fence ++ y) fence
            || has_fence ([backtick; backtick] ++ y) = true).
    by rewrite utils_props.startswith_self_app.
  - cbn [app has_fence]. rewrite IH. apply orb_true_r.
Qed.

(** Whitespace around a text adds no fence. *)
Lemma has_fence_ws_l (ws x : str) :
  Forall (λ c, isspace c = true) ws → has_fence (ws ++ x) = has_fence x.
Proof.
  induction 1 as [|w ws Hw _ IH]; [done|]. cbn [app has_fence]. rewrite IH.
  unfold fence. cbn [startswith].
  destruct (backtick =? w) eqn:E; [|done]. apply N.eqb_eq in E. by subst w.
Qed.

Lemma startswith_ws_r (x ws : str) :
  Forall (λ c, isspace c = true) ws →
  startswith (x ++ ws) fence = startswith x fence.
Proof.
  intros Hws. destruct Hws as [|w ws Hw _]; [by rewrite app_nil_r|].
  assert ((backtick =? w) = false) as Hbw.
  { destruct (backtick =? w) eqn:E; [|done]. apply N.eqb_eq in E. by subst w. }
  destruct x as [|a [|b [|c x]]]; unfold fence; cbn [app startswith];
    rewrite ?Hbw, ?andb_false_r; try done.
  by rewrite !utils_props.startswith_nil.
Qed.

Lemma has_fence_ws_r (x ws : str) :
  Forall (λ c, isspace c = true) ws → has_fence (x ++ ws) = has_fence x.
Proof.
  intros Hws. induction x as [|a x IH].
  - cbn [app]. rewrite <- (app_nil_r ws). by rewrite has_fence_ws_l.
  - change ((a :: x) ++ ws) with (a :: (x ++ ws)). cbn [has_fence].
    rewrite IH. f_equal.
    change (a :: x ++ ws) with ((a :: x) ++ ws). by apply startswith_ws_r.
Qed.

(** ** The pattern, step by step *)

Local Abbreviation closing s3 :=
  (λ s4 : str,
     if startswith (lstrip s4) fence
     then Some {| re.group1 := Some (take (length s3 - length s4) s3) |}
     else None).

(** [\s*(.*?)\s*```]: the part of the pattern after the tag *)
Local Abbreviation block :=
  (λ s : str,
     re.star re.Space (λ s3, re.lazy_star re.Any (closing s3) s3) s).

Local Abbreviation block_regex :=
  (re.seq [re.Star re.Space; re.Group (re.LazyStar re.Any);
           re.Star re.Space; re.lit fence]).

Lemma rmatch_block (s : str) (g : option str) :
  re.rmatch block_regex s g (λ _ g', Some {| re.group1 := g' |}) = block s.
Proof.
  change (re.star re.Space
            (λ s3, re.lazy_star re.Any
                     (λ s4, re.rmatch (re.seq [re.Star re.Space; re.lit fence]) s4
                              (Some (take (length s3 - length s4) s3))
                              (λ _ g', Some {| re.group1 := g' |})) s3) s
          = block s).
  apply re_more.star_ext. intros s3. apply re_more.lazy_star_ext. intros s4.
  apply utils_props.match_closing.
Qed.

Lemma match_unfold (s : str) :
  re.match_ json_pattern s
  = if startswith s fence
    then match re.rmatch (re.lit_ignorecase (pystr "json"))
                 (drop (length fence) s) None (λ s2 _, block s2) with
         | Some m => Some m
         | None => block (drop (length fence) s)
         end
    else None.
Proof.
  unfold re.match_, json_pattern.
  change (re.seq (re.lit fence :: ?rs)) with (re.Cat (re.lit fence) (re.seq rs)).
  cbn [re.rmatch]. rewrite re_props.rmatch_lit.
  destruct (startswith s fence); [|done].
  change (match re.rmatch (re.lit_ignorecase (pystr "json"))
                  (drop (length fence) s) None
                  (λ s' g', re.rmatch block_regex s' g'
                              (λ _ g'', Some {| re.group1 := g'' |})) with
          | Some m => Some m
          | None => re.rmatch block_regex (drop (length fence) s) None
                      (λ _ g'', Some {| re.group1 := g'' |})
          end = match re.rmatch (re.lit_ignorecase (pystr "json"))
                        (drop (length fence) s) None (λ s2 _, block s2) with
                | Some m => Some m
                | None => block (drop (length fence) s)
                end).
  rewrite rmatch_block.
  rewrite (re_more.rmatch_ext _ _ _ _ (λ s2 _, block s2)); [done|].
  intros x y. apply rmatch_block.
Qed.

Lemma rmatch_tag_inv {R} (s : str) (g : option str)
    (k : str → option str → option R) (m : R) :
  re.rmatch (re.lit_ignorecase (pystr "json")) s g k = Some m →
  ∃ tag rest, s = tag ++ rest ∧ is_tag tag = true ∧ tag ≠ [] ∧ k rest g = Some m.
Proof.
  change (pystr "json") with [106; 115; 111; 110].
  cbn [re.lit_ignorecase re.seq fmap list_fmap foldr re.rmatch].
  destruct s as [|c1 [|c2 [|c3 [|c4 rest]]]];
    repeat (try done; match goal with
            | |- context [if re.atom_match ?a ?c then _ else _] =>
                destruct (re.atom_match a c) eqn:?
            end).
  intros Hk. exists [c1; c2; c3; c4], rest.
  split; [done|]. split; [|by split].
  unfold is_tag. rewrite !andb_true_iff. by split_and!.
Qed.

(** The part after the tag matches every text that holds a fence. *)
Lemma block_is_Some (y z : str) : is_Some (block (y ++ fence ++ z)).
Proof.
  apply (re_more.star_is_Some re.Space _ [] (y ++ fence ++ z)); [done|].
  apply re_more.lazy_star_is_Some; [by apply Forall_true|].
  change (lstrip (fence ++ z)) with (fence ++ z).
  by rewrite utils_props.startswith_self_app.
Qed.

Lemma match_is_Some (y z : str) :
  is_Some (re.match_ json_pattern (fence ++ y ++ fence ++ z)).
Proof.
  rewrite match_unfold, utils_props.startswith_self_app, drop_app_length.
  destruct (re.rmatch _ _ _ _); [done|]. apply block_is_Some.
Qed.

(** The lazy group holds no fence: it stops at the first one. *)
Lemma minimal_no_fence (x y : str) :
  (∀ q1 q2, x = q1 ++ q2 → q2 ≠ [] →
            startswith (lstrip (q2 ++ y)) fence = false) →
  has_fence x = false.
Proof.
  induction x as [|a x IH]; [done|]. intros Hmin. cbn [has_fence].
  rewrite IH, orb_false_r.
  - destruct (startswith (a :: x) fence) eqn:Hs; [|done].
    pose proof (Hmin [] (a :: x) eq_refl ltac:(done)) as Hn.
    rewrite (lstrip_id _ a) in Hn.
    + by rewrite utils_props.startswith_app in Hn.
    + done.
    + unfold fence in Hs. cbn [startswith] in Hs.
      apply andb_true_iff in Hs as [<-%N.eqb_eq _]. done.
  - intros q1 q2 -> Hne. by apply (Hmin (a :: q1) q2).
Qed.

(** What a match of the part after the tag is made of. *)
Lemma block_inv (s : str) (m : re.Match) :
  block s = Some m →
  ∃ ws1 x ws2 post,
    s = ws1 ++ x ++ ws2 ++ fence ++ post ∧ re.group1 m = Some x
    ∧ Forall (λ c, isspace c = true) ws1 ∧ Forall (λ c, isspace c = true) ws2
    ∧ has_fence x = false ∧ strip x = x.
Proof.
  intros Hb. apply re_more.star_inv in Hb as (ws1 & s3 & -> & Hws1 & Hb & Hmax).
  apply re_more.lazy_star_inv in Hb as (x & s4 & -> & _ & Hc & Hmin).
  destruct (startswith (lstrip s4) fence) eqn:Hf; [|done].
  injection Hc as <-.
  destruct (utils_props.lstrip_split s4) as (ws2 & Hs4 & Hws2).
  pose proof Hf as Hsw.
  apply startswith_inv in Hf. set (post := drop (length fence) (lstrip s4)) in Hf.
  assert (∀ q1 q2, x = q1 ++ q2 → q2 ≠ [] →
                   startswith (lstrip (q2 ++ s4)) fence = false) as Hmin'.
  { intros q1 q2 Hx Hne. specialize (Hmin q1 q2 Hx Hne). cbv beta in Hmin.
    by destruct (startswith (lstrip (q2 ++ s4)) fence). }
  exists ws1, x, ws2, post. split_and!.
  - by rewrite <- Hf, <- Hs4.
  - cbn [re.group1]. rewrite length_app.
    replace (length x + length s4 - length s4)%nat with (length x) by lia.
    by rewrite take_app_length.
  - done.
  - done.
  - by apply (minimal_no_fence x s4).
  - destruct x as [|a c]; [done|].
    assert (∃ b, last (a :: c) = Some b) as [b Hb].
    { destruct (last (a :: c)) eqn:E; [by eexists|]. by apply last_None in E. }
    apply (strip_fixed a c b); [|done|].
    + destruct (isspace a) eqn:Ha; [|done]. exfalso.
      pose proof (Hmax a (c ++ s4) eq_refl Ha) as Hn.
      destruct (block_is_Some (c ++ ws2) post) as [m' Hm'].
      rewrite <- app_assoc, <- Hf, <- Hs4 in Hm'. congruence.
    + destruct (isspace b) eqn:Hbs; [|done]. exfalso.
      apply last_Some in Hb as [c' Hc'].
      pose proof (Hmin' c' [b] Hc' ltac:(done)) as Hn.
      cbn [app lstrip] in Hn. rewrite Hbs in Hn. congruence.
Qed.

(** What a match of the pattern is made of. *)
Lemma match_inv (s : str) (m : re.Match) :
  re.match_ json_pattern s = Some m →
  ∃ tag ws1 x ws2 post,
    s = fence ++ tag ++ ws1 ++ x ++ ws2 ++ fence ++ post
    ∧ re.group1 m = Some x ∧ is_tag tag = true
    ∧ Forall (λ c, isspace c = true) ws1 ∧ Forall (λ c, isspace c = true) ws2
    ∧ has_fence x = false ∧ strip x = x.
Proof.
  rewrite match_unfold. destruct (startswith s fence) eqn:Hs; [|done].
  apply startswith_inv in Hs.
  remember (drop (length fence) s) as s1 eqn:Hs1. clear Hs1. subst s.
  destruct (re.rmatch _ _ _ _) as [m'|] eqn:Htag.
  - intros [= ->].
    apply rmatch_tag_inv in Htag as (tag & rest & -> & Htag & _ & Hb).
    apply block_inv in Hb as (ws1 & x & ws2 & post & -> & Hg & H1 & H2 & Hx & Hsx).
    by exists tag, ws1, x, ws2, post.
  - intros Hb.
    apply block_inv in Hb as (ws1 & x & ws2 & post & -> & Hg & H1 & H2 & Hx & Hsx).
    by exists [], ws1, x, ws2, post.
Qed.

(** What a successful search is made of: the match starts at the first
    fence of the text. *)
Lemma search_json_inv (s : str) (m : re.Match) :
  re.search json_pattern s = Some m →
  ∃ pre tag ws1 x ws2 post,
    s = pre ++ fence ++ tag ++ ws1 ++ x ++ ws2 ++ fence ++ post
    ∧ re.group1 m = Some x ∧ is_tag tag = true
    ∧ Forall (λ c, isspace c = true) ws1 ∧ Forall (λ c, isspace c = true) ws2
    ∧ has_fence x = false ∧ strip x = x
    ∧ has_fence (pre ++ [backtick; backtick]) = false.
Proof.
  intros (pre & s2 & -> & Hm & Hmin)%re_more.search_inv.
  apply match_inv in Hm
    as (tag & ws1 & x & ws2 & post & -> & Hg & Htag & H1 & H2 & Hx & Hsx).
  exists pre, tag, ws1, x, ws2, post. split_and!; try done.
  induction pre as [|a pre IH]; [done|].
  cbn [app has_fence]. rewrite IH, orb_false_r.
  - destruct (startswith (a :: pre ++ [backtick; backtick]) fence) eqn:Hs; [|done].
    exfalso.
    pose proof (Hmin [] (a :: pre) eq_refl ltac:(done)) as Hn.
    apply (utils_props.startswith_app _
             (backtick :: tag ++ ws1 ++ x ++ ws2 ++ fence ++ post)) in Hs.
    apply startswith_inv in Hs.
    replace ((a :: pre ++ [backtick; backtick])
               ++ backtick :: tag ++ ws1 ++ x ++ ws2 ++ fence ++ post)
      with ((a :: pre) ++ fence ++ tag ++ ws1 ++ x ++ ws2 ++ fence ++ post) in Hs
      by (unfold fence; cbn [app]; by rewrite <- !app_assoc).
    destruct (match_is_Some
                (drop (length fence) ((a :: pre) ++ fence) ++ tag ++ ws1 ++ x ++ ws2)
                post) as [m' Hm'].
    assert ((a :: pre) ++ fence ++ tag ++ ws1 ++ x ++ ws2 ++ fence ++ post
            = fence ++ (drop (length fence) ((a :: pre) ++ fence)
                        ++ tag ++ ws1 ++ x ++ ws2) ++ fence ++ post) as Heq.
    { rewrite Hs at 1. f_equal.
      rewrite (app_assoc (a :: pre) fence), drop_app_le
        by (rewrite length_app; cbn; lia).
      by rewrite <- !app_assoc. }
    rewrite Heq in Hn. congruence.
  - intros q1 q2 -> Hne. by apply (Hmin (a :: q1) q2).
Qed.

Lemma search_two_fences (x y z : str) :
  is_Some (re.search json_pattern (x ++ fence ++ y ++ fence ++ z)).
Proof. apply re_more.search_is_Some, match_is_Some. Qed.

Lemma search_two_fences_inv (s : str) :
  is_Some (re.search json_pattern s) → ∃ x y z, s = x ++ fence ++ y ++ fence ++ z.
Proof.
  intros [m Hm].
  apply search_json_inv in Hm as (pre & tag & ws1 & x & ws2 & post & -> & _).
  exists pre, (tag ++ ws1 ++ x ++ ws2), post. by rewrite <- !app_assoc.
Qed.

Lemma search_no_fence (s : str) :
  has_fence s = false → re.search json_pattern s = None.
Proof.
  intros Hs. destruct (re.search json_pattern s) as [m|] eqn:Hm; [|done].
  destruct (search_two_fences_inv s) as (x & y & z & ->); [by eexists|].
  by rewrite has_fence_intro in Hs.
Qed.

(** The cleaned text of a response in which the pattern matches *)
Lemma clean_matched (s : str) (m : re.Match) (x : str) :
  re.search json_pattern s = Some m → re.group1 m = Some x → strip x = x →
  clean_json_response s = x.
Proof.
  intros Hm Hg Hx. unfold clean_json_response. by rewrite Hm, Hg.
Qed.

(** The opening fence of a text is where its first fence is. *)
Lemma startswith_long (w r : str) :
  (3 ≤ length w)%nat → startswith (w ++ r) fence = startswith w fence.
Proof.
  destruct w as [|a [|b [|c w]]]; cbn [length]; try lia. intros _.
  unfold fence. cbn [app startswith]. by rewrite !utils_props.startswith_nil.
Qed.

Lemma first_fence (pre rest x w : str) :
  has_fence (pre ++ [backtick; backtick]) = false →
  pre ++ fence ++ rest = x ++ fence ++ w →
  ∃ x', x = pre ++ x'.
Proof.
  revert x. induction pre as [|a pre IH]; intros x Hpre Heq; [by exists x|].
  cbn [app has_fence] in Hpre. apply orb_false_iff in Hpre as [Hs Hpre].
  destruct x as [|a' x].
  - exfalso. cbn [app] in Heq.
    assert (startswith ((a :: pre ++ [backtick; backtick]) ++ backtick :: rest) fence
            = true) as Ht.
    { replace ((a :: pre ++ [backtick; backtick]) ++ backtick :: rest)
        with (a :: pre ++ fence ++ rest)
        by (unfold fence; cbn [app]; by rewrite <- !app_assoc).
      rewrite Heq. apply utils_props.startswith_self_app. }
    rewrite startswith_long in Ht by (cbn [length]; rewrite length_app; cbn; lia).
    congruence.
  - cbn [app] in Heq. injection Heq as <- Heq.
    destruct (IH x Hpre Heq) as [x' ->]. by exists x'.
Qed.

(** A text with one fence only: what follows the first fence holds none. *)
Lemma one_fence (pre rest : str) :
  has_fence (pre ++ [backtick; backtick]) = false → has_fence rest = false →
  re.search json_pattern (pre ++ fence ++ rest) = None.
Proof.
  intros Hpre Hrest.
  destruct (re.search json_pattern (pre ++ fence ++ rest)) as [m|] eqn:Hm; [|done].
  exfalso.
  destruct (search_two_fences_inv (pre ++ fence ++ rest)) as (x & y & z & Heq);
    [by eexists|].
  destruct (first_fence pre rest x _ Hpre Heq) as [x' ->].
  rewrite <- app_assoc in Heq. apply app_inv_head in Heq.
  assert (rest = drop 3 (x' ++ fence ++ y) ++ fence ++ z) as Hr.
  { change rest with (drop 3 (fence ++ rest)). rewrite Heq.
    rewrite !(app_assoc x'), (app_assoc (x' ++ fence)).
    rewrite drop_app_le; [by rewrite <- !app_assoc|].
    rewrite !length_app. cbn. lia. }
  rewrite Hr, has_fence_intro in Hrest. done.
Qed.

(** ** Decoding *)

(** A text whose first character after whitespace is a backtick does not
    decode. *)
Lemma loads_fence_first (ws rest : str) :
  Forall (λ c, isspace c = true) ws →
  loads (ws ++ backtick :: rest) = Raise JSONDecodeError.
Proof.
  intros Hws.
  destruct (loads (ws ++ backtick :: rest)) as [v|e] eqn:Hl;
    [|by apply utils_props.loads_raise in Hl as ->].
  exfalso. apply json_props.loads_split in Hl
    as (w1 & a & c & w2 & Hs & Hw1 & _ & Ha & _).
  pose proof Ha as Hv. apply utils_props.value_start_chars in Ha as [Ha _].
  revert w1 Hs Hw1. induction Hws as [|p ws Hp _ IH]; intros w1 Hs Hw1.
  - destruct Hw1 as [|w w1 Hw _]; cbn [app] in Hs; injection Hs as <- _.
    + by vm_compute in Hv.
    + by vm_compute in Hw.
  - destruct Hw1 as [|w w1 Hw Hw1]; cbn [app] in Hs; injection Hs as <- Hs.
    + congruence.
    + by apply (IH w1).
Qed.

(** ** The pattern on a fenced text that is followed by more text *)

Lemma block_fenced (ws1 x ws2 post : str) (a b : N) :
  Forall (λ c, isspace c = true) ws1 → Forall (λ c, isspace c = true) ws2 →
  head x = Some a → isspace a = false →
  has_fence x = false → last x = Some b → isspace b = false → b ≠ backtick →
  block (ws1 ++ x ++ ws2 ++ fence ++ post) = Some {| re.group1 := Some x |}.
Proof.
  intros Hws1 Hws2 Hh Ha Hx Hl Hb Hbt.
  apply re_props.star_space_first; [done| |].
  { destruct x as [|a' x']; [done|]. cbn in Hh |- *. injection Hh as ->.
    by rewrite Ha. }
  apply re_props.lazy_star_first.
  - intros p1 p2 -> Hne.
    assert (last p2 = Some b) as Hl2.
    { rewrite last_app in Hl. by destruct (last p2) eqn:E; [|apply last_None in E]. }
    rewrite (utils_props.lstrip_app p2 _ b) by done.
    destruct (utils_props.lstrip_split p2) as (sp & Hp2 & _).
    pose proof (utils_props.lstrip_last p2 b Hl2 Hb) as Hl3.
    rewrite (utils_props.no_fence_app (p1 ++ p2) (ws2 ++ fence ++ post) Hx
               ltac:(congruence) (p1 ++ sp) (lstrip p2)); [done| |].
    + by rewrite <- app_assoc, <- Hp2.
    + intros E. by rewrite E in Hl3.
  - rewrite utils_props.lstrip_app_space by done.
    change (lstrip (fence ++ post)) with (fence ++ post).
    rewrite utils_props.startswith_self_app. do 3 f_equal.
    rewrite length_app.
    replace (length x + length (ws2 ++ fence ++ post)
             - length (ws2 ++ fence ++ post))%nat with (length x) by lia.
    by rewrite take_app_length.
Qed.

Lemma match_fenced_text (tag ws1 x ws2 post : str) (a b : N) :
  is_tag tag = true →
  Forall (λ c, isspace c = true) ws1 → Forall (λ c, isspace c = true) ws2 →
  head x = Some a → isspace a = false → re.atom_match (re.LitI 106) a = false →
  has_fence x = false → last x = Some b → isspace b = false → b ≠ backtick →
  re.match_ json_pattern (fence ++ tag ++ ws1 ++ x ++ ws2 ++ fence ++ post)
  = Some {| re.group1 := Some x |}.
Proof.
  intros Htag Hws1 Hws2 Hh Ha Haj Hx Hl Hb Hbt.
  rewrite match_unfold, utils_props.startswith_self_app, drop_app_length.
  pose proof (block_fenced ws1 x ws2 post a b Hws1 Hws2 Hh Ha Hx Hl Hb Hbt) as HK.
  destruct (decide (tag = [])) as [->|Hne].
  - cbn [app]. rewrite HK.
    destruct (ws1 ++ x ++ ws2 ++ fence ++ post) as [|c s] eqn:Hs; [done|].
    change (pystr "json") with (106 :: [115; 111; 110]).
    rewrite re_props.rmatch_lit_ignorecase_head; [done|].
    destruct Hws1 as [|w ws1 Hw _].
    + destruct x as [|a' x']; [done|]. cbn in Hh, Hs. by simplify_eq.
    + cbn in Hs. simplify_eq. destruct (re.atom_match (re.LitI 106) c) eqn:E; [|done].
      cbn in E. rewrite orb_false_r in E. apply N.eqb_eq in E.
      unfold re.lower in E. destruct ((65 <=? c) && (c <=? 90)) eqn:Hc.
      * assert (c = 74) as -> by lia. done.
      * subst c. done.
  - by rewrite utils_props.rmatch_tag, HK.
Qed.

Lemma search_fenced_text (pre tag ws1 x ws2 post : str) (a b : N) :
  has_fence pre = false → last pre ≠ Some backtick →
  is_tag tag = true →
  Forall (λ c, isspace c = true) ws1 → Forall (λ c, isspace c = true) ws2 →
  head x = Some a → isspace a = false → re.atom_match (re.LitI 106) a = false →
  has_fence x = false → last x = Some b → isspace b = false → b ≠ backtick →
  re.search json_pattern (fenced pre tag ws1 x ws2 ++ post)
  = Some {| re.group1 := Some x |}.
Proof.
  intros Hpre Hprel Htag Hws1 Hws2 Hh Ha Haj Hx Hl Hb Hbt. unfold fenced.
  rewrite <- !app_assoc. rewrite re_props.search_skip.
  - apply re_props.search_here. by eapply match_fenced_text.
  - intros p1 p2 Hp Hne. rewrite match_unfold.
    by rewrite (utils_props.no_fence_app pre _ Hpre Hprel p1 p2).
Qed.

(** X15: the pattern of [clean_json_response] finds a match exactly in the
    texts that hold two fences that do not overlap. *)
Theorem fence_pattern_matches (response_text : str) :
  is_Some (re.search json_pattern response_text)
  ↔ ∃ x y z, response_text = x ++ fence ++ y ++ fence ++ z.
Proof.
  split; [apply search_two_fences_inv|].
  intros (x & y & z & ->). apply search_two_fences.
Qed.

(** X16: in a response that holds two fences that do not overlap, the
    cleaned text is the text between the first fence, its optional [json]
    tag and whitespace, and the next fence that follows it with whitespace;
    it holds no fence and no whitespace at its ends. *)
Theorem cleaned_between_fences (response_text x y z : str) :
  response_text = x ++ fence ++ y ++ fence ++ z →
  ∃ pre tag ws1 ws2 post,
    response_text
    = pre ++ fence ++ tag ++ ws1 ++ clean_json_response response_text
          ++ ws2 ++ fence ++ post
    ∧ has_fence (pre ++ [backtick; backtick]) = false
    ∧ is_tag tag = true
    ∧ Forall (λ c, isspace c = true) ws1 ∧ Forall (λ c, isspace c = true) ws2
    ∧ has_fence (clean_json_response response_text) = false
    ∧ strip (clean_json_response response_text)
      = clean_json_response response_text.
Proof.
  intros Hs. destruct (search_two_fences x y z) as [m Hm]. rewrite <- Hs in Hm.
  destruct (search_json_inv _ _ Hm)
    as (pre & tag & ws1 & g & ws2 & post & Heq & Hg & Htag & H1 & H2 & Hf & Hsg & Hpre).
  rewrite (clean_matched _ m g Hm Hg Hsg).
  by exists pre, tag, ws1, ws2, post.
Qed.

(** X17: cleaning is idempotent: a cleaned text is left as it is. *)
Theorem clean_json_response_idempotent (response_text : str) :
  clean_json_response (clean_json_response response_text)
  = clean_json_response response_text.
Proof.
  destruct (re.search json_pattern response_text) as [m|] eqn:Hm.
  - destruct (search_json_inv _ _ Hm)
      as (pre & tag & ws1 & g & ws2 & post & _ & Hg & _ & _ & _ & Hf & Hsg & _).
    rewrite (clean_matched _ m g Hm Hg Hsg).
    unfold clean_json_response. by rewrite (search_no_fence g Hf).
  - assert (clean_json_response response_text = strip response_text) as ->
      by (unfold clean_json_response; by rewrite Hm).
    assert (re.search json_pattern (strip response_text) = None) as Hn.
    { destruct (re.search json_pattern (strip response_text)) as [m|] eqn:Hm'; [|done].
      exfalso.
      destruct (search_two_fences_inv (strip response_text)) as (x & y & z & Hx);
        [by eexists|].
      destruct (strip_split response_text) as (w1 & w2 & Hr & _).
      destruct (search_two_fences (w1 ++ x) y (z ++ w2)) as [m' Hm''].
      rewrite <- !app_assoc in Hm''.
      rewrite Hr, Hx, <- !app_assoc in Hm. congruence. }
    unfold clean_json_response. rewrite Hn. apply strip_idemp.
Qed.

(** X18: whitespace around a JSON text does no harm, also whitespace that
    JSON does not allow (a no-break space, a form feed): when the text
    decodes and holds no fence, the parser returns its value. *)
Theorem surrounding_whitespace (ws1 t ws2 : str) (v : value) :
  loads t = Return v → has_fence t = false →
  Forall (λ c, isspace c = true) ws1 → Forall (λ c, isspace c = true) ws2 →
  parse_llm_response (ws1 ++ t ++ ws2) = Return v.
Proof.
  intros Ht Hf H1 H2.
  pose proof Ht as (w1 & a & c & w2 & Hsplit & Hw1 & Hw2 & Ha & (c' & b & Hc & Hb))
    %json_props.loads_split.
  apply utils_props.value_start_chars in Ha as [Ha _].
  apply utils_props.value_end_chars in Hb as [Hb _].
  assert (last (a :: c) = Some b) as Hlast by (rewrite Hc; apply last_snoc).
  assert (loads (a :: c) = Return v) as Hcore.
  { rewrite <- Ht, Hsplit. symmetry. by apply json_props.loads_ws. }
  assert (strip (ws1 ++ t ++ ws2) = a :: c) as Hstrip.
  { rewrite Hsplit.
    replace (ws1 ++ (w1 ++ (a :: c) ++ w2) ++ ws2)
      with ((ws1 ++ w1) ++ (a :: c) ++ (w2 ++ ws2)) by (by rewrite <- !app_assoc).
    apply (utils_props.strip_core _ a c _ b); try done.
    - apply Forall_app. split; [done|].
      eapply Forall_impl; [exact Hw1|]. apply utils_props.is_ws_isspace.
    - apply Forall_app. split; [|done].
      eapply Forall_impl; [exact Hw2|]. apply utils_props.is_ws_isspace. }
  unfold parse_llm_response.
  destruct (loads (ws1 ++ t ++ ws2)) as [v'|e] eqn:Hd.
  - pose proof Hd as (u1 & a' & d & u2 & Hs' & Hu1 & Hu2 & Ha' & (d' & b' & Hd' & Hb'))
      %json_props.loads_split.
    apply utils_props.value_start_chars in Ha' as [Ha' _].
    apply utils_props.value_end_chars in Hb' as [Hb' _].
    assert (strip (ws1 ++ t ++ ws2) = a' :: d) as Hstrip'.
    { rewrite Hs'. apply (utils_props.strip_core _ a' d _ b'); try done.
      - eapply Forall_impl; [exact Hu1|]. apply utils_props.is_ws_isspace.
      - eapply Forall_impl; [exact Hu2|]. apply utils_props.is_ws_isspace.
      - rewrite Hd'. apply last_snoc. }
    rewrite <- Hd, Hs', json_props.loads_ws by done.
    rewrite <- Hstrip', Hstrip. done.
  - apply utils_props.loads_raise in Hd as ->.
    unfold clean_json_response. rewrite search_no_fence.
    + by rewrite Hstrip.
    + by rewrite has_fence_ws_l, has_fence_ws_r.
Qed.

(** X19: a JSON value of any kind in a fence, also when text follows the
    closing fence: for a text [t] that decodes and holds no fence, after a
    text that holds no fence and does not end in a backtick, the cleaner
    extracts [t] stripped, whatever follows the closing fence; the parser
    returns the value of [t] whenever the direct parse of the response
    fails, as it does when only whitespace precedes the fence. *)
Theorem fenced_value_then_text (pre tag ws1 t ws2 post : str) (v : value) :
  loads t = Return v →
  has_fence t = false →
  has_fence pre = false → last pre ≠ Some backtick →
  is_tag tag = true →
  Forall (λ c, isspace c = true) ws1 → Forall (λ c, isspace c = true) ws2 →
  clean_json_response (fenced pre tag ws1 t ws2 ++ post) = strip t
  ∧ (loads (fenced pre tag ws1 t ws2 ++ post) = Raise JSONDecodeError →
     parse_llm_response (fenced pre tag ws1 t ws2 ++ post) = Return v)
  ∧ (Forall (λ c, isspace c = true) pre →
     parse_llm_response (fenced pre tag ws1 t ws2 ++ post) = Return v).
Proof.
  intros Ht Hnf Hpre Hprel Htag Hws1 Hws2.
  pose proof Ht as (w1 & a & c & w2 & Hsplit & Hw1 & Hw2 & Ha & (c' & b & Hc & Hb))
    %json_props.loads_split.
  apply utils_props.value_start_chars in Ha as [Ha Haj].
  apply utils_props.value_end_chars in Hb as [Hb Hbt].
  assert (last (a :: c) = Some b) as Hlast by (rewrite Hc; apply last_snoc).
  assert (Forall (λ c, isspace c = true) w1) as Hw1'
    by (eapply Forall_impl; [exact Hw1|]; apply utils_props.is_ws_isspace).
  assert (Forall (λ c, isspace c = true) w2) as Hw2'
    by (eapply Forall_impl; [exact Hw2|]; apply utils_props.is_ws_isspace).
  assert (strip t = a :: c) as Hstrip.
  { rewrite Hsplit. by apply (utils_props.strip_core w1 a c w2 b). }
  assert (loads (a :: c) = Return v) as Hcore.
  { rewrite <- Ht, Hsplit. symmetry. by apply json_props.loads_ws. }
  assert (clean_json_response (fenced pre tag ws1 t ws2 ++ post) = a :: c) as Hclean.
  { unfold clean_json_response.
    replace (fenced pre tag ws1 t ws2)
      with (fenced pre tag (ws1 ++ w1) (a :: c) (w2 ++ ws2))
      by (unfold fenced; rewrite Hsplit; by rewrite <- !app_assoc).
    rewrite (search_fenced_text pre tag (ws1 ++ w1) (a :: c) (w2 ++ ws2) post a b);
      try done; try (by apply Forall_app).
    - by apply (strip_fixed a c b).
    - rewrite Hsplit in Hnf.
      by apply utils_props.has_fence_app_r, utils_props.has_fence_app_l in Hnf. }
  assert (loads (fenced pre tag ws1 t ws2 ++ post) = Raise JSONDecodeError →
          parse_llm_response (fenced pre tag ws1 t ws2 ++ post) = Return v) as Hp.
  { intros Hd. unfold parse_llm_response. by rewrite Hd, Hclean. }
  split_and!; [by rewrite Hclean, Hstrip|done|].
  intros Hws. apply Hp. unfold fenced, fence. rewrite <- !app_assoc.
  by apply loads_fence_first.
Qed.

(** X20: a fence that is opened and never closed is not taken off: a
    response that starts, after whitespace, with a fence and holds no fence
    after it does not parse, whatever is in it. *)
Theorem unterminated_fence (ws rest : str) :
  Forall (λ c, isspace c = true) ws → has_fence rest = false →
  parse_llm_response (ws ++ fence ++ rest) = Raise JSONDecodeError.
Proof.
  intros Hws Hrest. unfold parse_llm_response.
  assert (loads (ws ++ fence ++ rest) = Raise JSONDecodeError) as ->
    by apply (loads_fence_first ws (backtick :: backtick :: rest) Hws).
  unfold clean_json_response. rewrite one_fence; [|by rewrite has_fence_ws_l|done].
  unfold strip. rewrite utils_props.lstrip_app_space by done.
  change (lstrip (fence ++ rest)) with (fence ++ rest).
  destruct (rstrip_split (fence ++ rest)) as (w & Hr & Hw).
  destruct (rstrip (fence ++ rest)) as [|a r].
  - exfalso. cbn [app] in Hr. rewrite <- Hr in Hw. by inversion_clear Hw.
  - injection Hr as <- _. by apply (loads_fence_first [] r).
Qed.

Lemma cleaned_between_fences_witness :
  ∃ pre tag ws1 ws2 post,
    examples.qa_fenced
    = pre ++ fence ++ tag ++ ws1 ++ clean_json_response examples.qa_fenced
          ++ ws2 ++ fence ++ post
    ∧ has_fence (pre ++ [backtick; backtick]) = false
    ∧ is_tag tag = true
    ∧ Forall (λ c, isspace c = true) ws1 ∧ Forall (λ c, isspace c = true) ws2
    ∧ has_fence (clean_json_response examples.qa_fenced) = false
    ∧ strip (clean_json_response examples.qa_fenced)
      = clean_json_response examples.qa_fenced.
Proof.
  apply (cleaned_between_fences examples.qa_fenced
           (pystr "Sure, here is the JSON:" ++ [10])
           (pystr "json" ++ [10] ++ examples.qa_array ++ [10]) []).
  by vm_compute.
Defined.

Lemma surrounding_whitespace_witness :
  parse_llm_response ([160] ++ pystr "[1]" ++ [12]) = Return (List [Int 1]).
Proof.
  apply (surrounding_whitespace [160] (pystr "[1]") [12] (List [Int 1]));
    [by vm_compute | by vm_compute | by repeat constructor | by repeat constructor].
Defined.

Lemma fenced_value_then_text_witness :
  clean_json_response examples.object_fenced_then_text = strip examples.object_text
  ∧ parse_llm_response examples.object_fenced_then_text
    = Return (Dict [(pystr "a", Int 1)]).
Proof.
  destruct (fenced_value_then_text [] (pystr "json") [10] examples.object_text [10]
              (pystr " Done.") (Dict [(pystr "a", Int 1)])) as (Hc & _ & Hp);
    [by vm_compute | by vm_compute | by vm_compute | by vm_compute | by vm_compute
    | by repeat constructor | by repeat constructor |].
  split; [exact Hc|]. apply Hp. constructor.
Defined.

Lemma unterminated_fence_witness :
  parse_llm_response examples.unterminated = Raise JSONDecodeError.
Proof.
  apply (unterminated_fence [] (pystr "json" ++ [10] ++ pystr "[1, 2]"));
    [constructor | by vm_compute].
Defined.

End utils_more.
